(** * Tic-tac-toe backend: the in-memory game table and its three RPC handlers

    A shallow embedding of [backend/game.go].  Go strings are byte
    sequences, modelled by [string] (a list of 8-bit [ascii]); Go's [int] and
    [rune] values are modelled by [Z]; the process-wide table
    [games : map[string]*Game] is a [gmap string Game] threaded through the
    handlers.  Every [*Game] in the table is allocated by [createGameRPC] and
    stored under one key only, so in-place mutation through the pointer is an
    update of that key.

    What reaches a handler from outside is an input of its model: the
    payload as [encoding/json] decodes it, and the number drawn by
    [math/rand].  A handler returns the table together with its outcome: a
    response, an error, or a run-time panic (index out of range), which is
    kept apart from the errors. *)

From Stdlib Require Import ZArith Ascii String List Lia.
From Stdlib Require Import Floats.SpecFloat DecimalString.
From Stdlib Require DecimalPos DecimalZ.
From stdpp Require Import gmap strings list fin_maps.

Local Open Scope Z_scope.

(** ** Go strings, bytes and runes *)

Module GoString.

Definition bytes (s : string) : list ascii := list_ascii_of_string s.

Definition of_bytes (l : list ascii) : string := string_of_list_ascii l.

Definition byte_val (c : ascii) : Z := Z.of_N (N_of_ascii c).

Definition byte_of (z : Z) : ascii := ascii_of_N (Z.to_N (z mod 256)).

(** [len(s)] *)
Definition len (s : string) : Z := Z.of_nat (length (bytes s)).

(** [s[i]]; [None] is the index-out-of-range panic. *)
Definition index (s : string) (i : Z) : option ascii :=
  if (i <? 0) then None else bytes s !! Z.to_nat i.

(** [strings.Contains(s, string(c))] for a one-byte needle. *)
Definition contains_byte (s : string) (c : ascii) : bool :=
  existsb (fun x => bool_decide (x = c)) (bytes s).

Definition RuneError : Z := 65533.

(** The table [first] of [unicode/utf8]: for a lead byte at least [0x80],
    the width of the sequence and the accepted range of its second byte. *)
Definition first (b0 : Z) : option (Z * Z * Z) :=
  if b0 <? 194 then None
  else if b0 <=? 223 then Some (2, 128, 191)
  else if b0 =? 224 then Some (3, 160, 191)
  else if b0 <=? 236 then Some (3, 128, 191)
  else if b0 =? 237 then Some (3, 128, 159)
  else if b0 <=? 239 then Some (3, 128, 191)
  else if b0 =? 240 then Some (4, 144, 191)
  else if b0 <=? 243 then Some (4, 128, 191)
  else if b0 =? 244 then Some (4, 128, 143)
  else None.

Definition cont (b : Z) : bool := (128 <=? b) && (b <=? 191).

(** [utf8.DecodeRune]: the rune at the head of [p] and its width in bytes. *)
Definition DecodeRune (p : list ascii) : Z * nat :=
  match p with
  | [] => (RuneError, 0%nat)
  | c0 :: p1 =>
    let b0 := byte_val c0 in
    if b0 <? 128 then (b0, 1%nat) else
    match first b0 with
    | None => (RuneError, 1%nat)
    | Some (sz, lo, hi) =>
      match p1 with
      | [] => (RuneError, 1%nat)
      | c1 :: p2 =>
        let b1 := byte_val c1 in
        if (b1 <? lo) || (hi <? b1) then (RuneError, 1%nat)
        else if sz =? 2 then
          (Z.lor (Z.shiftl (Z.land b0 31) 6) (Z.land b1 63), 2%nat)
        else
        match p2 with
        | [] => (RuneError, 1%nat)
        | c2 :: p3 =>
          let b2 := byte_val c2 in
          if negb (cont b2) then (RuneError, 1%nat)
          else if sz =? 3 then
            (Z.lor (Z.lor (Z.shiftl (Z.land b0 15) 12)
                          (Z.shiftl (Z.land b1 63) 6))
                   (Z.land b2 63), 3%nat)
          else
          match p3 with
          | [] => (RuneError, 1%nat)
          | c3 :: _ =>
            let b3 := byte_val c3 in
            if negb (cont b3) then (RuneError, 1%nat)
            else
              (Z.lor (Z.lor (Z.lor (Z.shiftl (Z.land b0 7) 18)
                                   (Z.shiftl (Z.land b1 63) 12))
                            (Z.shiftl (Z.land b2 63) 6))
                     (Z.land b3 63), 4%nat)
          end
        end
      end
    end
  end.

Fixpoint decode_all (fuel : nat) (p : list ascii) : list Z :=
  match fuel, p with
  | _, [] => []
  | O, _ => []
  | S fuel', _ =>
    let '(r, w) := DecodeRune p in r :: decode_all fuel' (drop w p)
  end.

(** [[]rune(s)] *)
Definition runes (s : string) : list Z :=
  decode_all (length (bytes s)) (bytes s).

(** [utf8.EncodeRune] on an [int32] rune. *)
Definition EncodeRune (r : Z) : list ascii :=
  let rune_error := [byte_of 239; byte_of 191; byte_of 189] in
  if r <? 0 then rune_error
  else if r <=? 127 then [byte_of r]
  else if r <=? 2047 then
    [byte_of (Z.lor 192 (Z.shiftr r 6)); byte_of (Z.lor 128 (Z.land r 63))]
  else if (1114111 <? r) || ((55296 <=? r) && (r <=? 57343)) then rune_error
  else if r <=? 65535 then
    [byte_of (Z.lor 224 (Z.shiftr r 12));
     byte_of (Z.lor 128 (Z.land (Z.shiftr r 6) 63));
     byte_of (Z.lor 128 (Z.land r 63))]
  else
    [byte_of (Z.lor 240 (Z.shiftr r 18));
     byte_of (Z.lor 128 (Z.land (Z.shiftr r 12) 63));
     byte_of (Z.lor 128 (Z.land (Z.shiftr r 6) 63));
     byte_of (Z.lor 128 (Z.land r 63))].

(** [string(rs)] for [rs : []rune] *)
Definition of_runes (rs : list Z) : string :=
  of_bytes (concat (map EncodeRune rs)).

(** [string(c)] for a byte [c]: the UTF-8 encoding of the code point. *)
Definition of_byte (c : ascii) : string := of_runes [byte_val c].

End GoString.

Import GoString.

(** ** Library functions used by the handlers *)

Module GoLib.

Definition MinInt64 : Z := - 2 ^ 63.
Definition MaxInt64 : Z := 2 ^ 63 - 1.

(** [%d] of a Go [int]. *)
Definition itoa (n : Z) : string := NilZero.string_of_int (Z.to_int n).

Definition is_digit (c : ascii) : bool :=
  (48 <=? byte_val c) && (byte_val c <=? 57).

Definition MaxUint64 : Z := 2 ^ 64 - 1.

(** How a parse ends: without error, with [ErrSyntax] or with [ErrRange]. *)
Inductive parse_end : Type := ParseOk | ErrSyntax | ErrRange.

(** The loop of [strconv.ParseUint(s, 10, 64)] over the bytes left, [n]
    being the value so far.  A byte that is no digit ends it with the
    syntax error and 0; a digit that takes the value beyond [uint64] ends
    it at once, before the bytes that follow are looked at, with the range
    error and the largest [uint64]. *)
Fixpoint parse_digits (n : Z) (l : list ascii) : Z * parse_end :=
  match l with
  | [] => (n, ParseOk)
  | c :: l' =>
    if is_digit c then
      if MaxUint64 / 10 + 1 <=? n then (MaxUint64, ErrRange)
      else
        let n1 := n * 10 + (byte_val c - 48) in
        if MaxUint64 <? n1 then (MaxUint64, ErrRange)
        else parse_digits n1 l'
    else (0, ErrSyntax)
  end.

(** [strconv.ParseUint(s, 10, 64)]; the empty string is a syntax error. *)
Definition ParseUint (l : list ascii) : Z * parse_end :=
  match l with
  | [] => (0, ErrSyntax)
  | _ => parse_digits 0 l
  end.

(** [strconv.Atoi], as [ParseInt(s, 10, 0)] computes it (the fast path of
    [Atoi] for short strings gives the same): the parsed value and
    whether the error is [nil].  On a syntax error the value is 0; on a
    range error it is the nearest [int64]. *)
Definition Atoi (s : string) : Z * bool :=
  let parse (minus : bool) (ds : list ascii) : Z * bool :=
    match ParseUint ds with
    | (_, ErrSyntax) => (0, false)
    | (un, _) =>
      if negb minus && (2 ^ 63 <=? un) then (MaxInt64, false)
      else if minus && (2 ^ 63 <? un) then (MinInt64, false)
      else (if minus then - un else un, true)
    end in
  match bytes s with
  | [] => (0, false)
  | c :: ds =>
    if bool_decide (c = "+"%char) then parse false ds
    else if bool_decide (c = "-"%char) then parse true ds
    else parse false (c :: ds)
  end.

(** The integer part of a [float64], when it is finite (a JSON number
    always is). *)
Definition float64_trunc (f : spec_float) : option Z :=
  match f with
  | S754_zero _ => Some 0
  | S754_finite s m e =>
    let mag := if 0 <=? e then Z.pos m * 2 ^ e else Z.pos m / 2 ^ (- e) in
    Some (if s then - mag else mag)
  | S754_infinity _ | S754_nan => None
  end.

(** The conversion [int(v)] of a [float64]: truncation toward zero.  Where
    the integer part does not fit an [int64] Go leaves the result to the
    implementation; amd64 yields the smallest [int64]. *)
Definition int_of_float64 (f : spec_float) : Z :=
  match float64_trunc f with
  | Some t => if (MinInt64 <=? t) && (t <=? MaxInt64) then t else MinInt64
  | None => MinInt64
  end.

End GoLib.

Import GoLib.

(** ** The data model *)

(** [type Game struct] *)
Record Game : Type := mkGame {
  ID : string;      (* game_id *)
  Board : string;   (* 9-char string: "-" for empty, "X" or "O" *)
  Turn : string;    (* "X" or "O" *)
  Winner : string;  (* "", "X", "O", "draw" *)
}.

(** A dynamically typed Go value ([interface{}]).  [encoding/json] decodes
    into [nil], [bool], [float64], [string], [[]interface{}] and
    [map[string]interface{}]; [int] is there for the type switch of
    [makeMoveRPC]. *)
#[warnings="-register-all"]
Inductive value : Type :=
| VNil
| VBool (b : bool)
| VFloat64 (f : spec_float)
| VInt (n : Z)
| VString (s : string)
| VSlice (l : list value)
| VMap (m : list (string * value)).

(** What a handler hands back: the response object given to
    [json.Marshal], an error with its message, or a run-time panic. *)
Inductive outcome (A : Type) : Type :=
| Ok (a : A)
| Err (msg : string)
| Panic.
Arguments Ok {A} a.
Arguments Err {A} msg.
Arguments Panic {A}.

Record CreateResp : Type := mkCreateResp {
  cr_ok : bool; cr_game_id : string; cr_board : string; cr_turn : string }.

Record MoveResp : Type := mkMoveResp {
  mr_ok : bool; mr_game : Game; mr_board : string; mr_turn : string;
  mr_winner : string }.

Record GetResp : Type := mkGetResp { gr_ok : bool; gr_game : Game }.

#[global] Instance Game_eq_dec : EqDecision Game.
Proof. solve_decision. Defined.

(** ** The engine *)

(** helper: create empty board *)
Definition newBoard : string := "---------".

(** helper: generate simple id; [r] is the value of [rand.Intn(1000000)]. *)
Definition genID (r : Z) : string := "g-" +:+ itoa r.

Definition winLines : list (Z * Z * Z) :=
  [ (0, 1, 2); (3, 4, 5); (6, 7, 8);
    (0, 3, 6); (1, 4, 7); (2, 5, 8);
    (0, 4, 8); (2, 4, 6) ].

(** The loop of [checkWinner] over the remaining lines; [None] is the
    index-out-of-range panic. *)
Fixpoint checkLines (board : string) (ws : list (Z * Z * Z)) : option string :=
  match ws with
  | [] => Some ""
  | (w0, w1, w2) :: ws' =>
    match index board w0 with
    | None => None
    | Some a =>
      match index board w1 with
      | None => None
      | Some b =>
        match index board w2 with
        | None => None
        | Some c =>
          if bool_decide (a ≠ "-"%char) && bool_decide (a = b)
             && bool_decide (b = c)
          then Some (of_byte a)
          else checkLines board ws'
        end
      end
    end
  end.

(** checkWinner: returns "X", "O", "" for none *)
Definition checkWinner (board : string) : option string :=
  checkLines board winLines.

(** ** The RPC handlers *)

(** The response object of a successful [makeMoveRPC], built from the game
    after the move. *)
Definition moveResp (game : Game) : MoveResp :=
  {| mr_ok := true; mr_game := game; mr_board := Board game;
     mr_turn := Turn game; mr_winner := Winner game |}.

Section Handlers.

(** [fmt.Sprintf("%v", v)], the text of a decoded value, by which the
    handlers turn the [game_id] field into a key of the table.  Nothing is
    assumed about it. *)
Variable Sprint : value → string.

(** createGameRPC: create a new game and return the response object.
    [r] is the draw of [rand.Intn(1000000)] made by [genID]; the payload is
    not read. *)
Definition createGameRPC (r : Z) (games : gmap string Game)
  : gmap string Game * outcome CreateResp :=
  let id := genID r in
  let game := {| ID := id; Board := newBoard; Turn := "X"; Winner := "" |} in
  (<[id := game]> games,
   Ok {| cr_ok := true; cr_game_id := ID game; cr_board := Board game;
         cr_turn := Turn game |}).

(** The type switch on the decoded [cell] field; [None] is its [default]
    branch. *)
Definition cell_of (cellF : value) : option Z :=
  match cellF with
  | VFloat64 v => Some (int_of_float64 v)
  | VInt v => Some v
  | VString v => Some (fst (Atoi v))
  | _ => None
  end.

(** The statements of [makeMoveRPC] after the three validation checks on
    the stored game: apply move, check winner, persist back.  [game.Turn[0]]
    and [boardRunes[cell]] panic before [game.Board] is assigned, and
    [checkWinner] may panic after it. *)
Definition applyMove (games : gmap string Game) (gid : string) (game : Game)
    (cell : Z) : gmap string Game * outcome MoveResp :=
  let boardRunes := runes (Board game) in
  match index (Turn game) 0 with
  | None => (games, Panic)
  | Some t =>
    if Z.of_nat (length boardRunes) <=? cell then (games, Panic) else
    let board' := of_runes (<[Z.to_nat cell := byte_val t]> boardRunes) in
    let game1 := {| ID := ID game; Board := board'; Turn := Turn game;
                    Winner := Winner game |} in
    match checkWinner board' with
    | None => (<[gid := game1]> games, Panic)
    | Some winner =>
      let game2 :=
        if bool_decide (winner ≠ "") then
          {| ID := ID game; Board := board'; Turn := Turn game;
             Winner := winner |}
        else if negb (contains_byte board' "-"%char) then
          {| ID := ID game; Board := board'; Turn := Turn game;
             Winner := "draw" |}
        else
          {| ID := ID game; Board := board';
             Turn := if bool_decide (Turn game = "X") then "O" else "X";
             Winner := Winner game |} in
      (<[gid := game2]> games, Ok (moveResp game2))
    end
  end.

(** makeMoveRPC.  [payload] is the result of [json.Unmarshal] into a
    [map[string]interface{}]: [None] when it returns an error. *)
Definition makeMoveRPC (games : gmap string Game)
    (payload : option (gmap string value))
  : gmap string Game * outcome MoveResp :=
  match payload with
  | None => (games, Err "invalid payload JSON")
  | Some inp =>
    match inp !! "game_id" with
    | None => (games, Err "missing game_id")
    | Some gidRaw =>
      let gid := Sprint gidRaw in
      match inp !! "cell" with
      | None => (games, Err "missing cell")
      | Some cellF =>
        match cell_of cellF with
        | None => (games, Err "invalid cell index")
        | Some cell =>
          if (cell <? 0) || (8 <? cell)
          then (games, Err "cell index out of range")
          else
            match games !! gid with
            | None => (games, Err "game not found")
            | Some game =>
              if bool_decide (Winner game ≠ "")
              then (games, Err "game already finished")
              else
                match index (Board game) cell with
                | None => (games, Panic)
                | Some c =>
                  if bool_decide (c ≠ "-"%char)
                  then (games, Err "cell already occupied")
                  else applyMove games gid game cell
                end
            end
        end
      end
    end
  end.

(** getGameRPC: return game by id. *)
Definition getGameRPC (games : gmap string Game)
    (payload : option (gmap string value))
  : gmap string Game * outcome GetResp :=
  match payload with
  | None => (games, Err "invalid payload JSON")
  | Some inp =>
    match inp !! "game_id" with
    | None => (games, Err "missing game_id")
    | Some gidRaw =>
      let gid := Sprint gidRaw in
      match games !! gid with
      | None => (games, Err "game not found")
      | Some game => (games, Ok {| gr_ok := true; gr_game := game |})
      end
    end
  end.

(** *** Runs of the server *)

Inductive call : Type :=
| CreateGame (r : Z)
| MakeMove (payload : option (gmap string value))
| GetGame (payload : option (gmap string value)).

(** The table after one call. *)
Definition step (games : gmap string Game) (c : call) : gmap string Game :=
  match c with
  | CreateGame r => fst (createGameRPC r games)
  | MakeMove p => fst (makeMoveRPC games p)
  | GetGame p => fst (getGameRPC games p)
  end.

Definition run (games : gmap string Game) (cs : list call)
  : gmap string Game := fold_left step cs games.

(** [rand.Intn(1000000)] returns a value in [0, 1000000). *)
Definition call_ok (c : call) : Prop :=
  match c with
  | CreateGame r => 0 <= r < 1000000
  | _ => True
  end.

(** The tables the process can hold: those reached from the empty table
    of program start by a sequence of calls. *)
Definition reachable (games : gmap string Game) : Prop :=
  ∃ cs, Forall call_ok cs ∧ run ∅ cs = games.

End Handlers.

(** The decoded payload [{"game_id": gid, "cell": cell}]. *)
Definition move_payload (gid : value) (cell : value)
  : option (gmap string value) :=
  Some (<["game_id" := gid]> (<["cell" := cell]> ∅)).

(** The JSON number [n], an integer of magnitude at most 2^53, as the
    [float64] it decodes to: every such integer is a [float64], written
    here with mantissa [|n|] and exponent 0.  A larger integer is rounded
    by the decoder to a neighbouring [float64] (2^53 + 1 to 2^53), which
    [num] does not do: it is used below that bound only. *)
Definition num (n : Z) : value :=
  match n with
  | Z0 => VFloat64 (S754_zero false)
  | Zpos p => VFloat64 (S754_finite false p 0)
  | Zneg p => VFloat64 (S754_finite true p 0)
  end.

(** [%v] on strings, [nil], booleans and ints.  It stands for [Sprint] in
    the concrete runs below, whose [game_id] fields are strings; on the
    other values, which no run uses, it is the empty string. *)
Definition sprint_basic (v : value) : string :=
  match v with
  | VString s => s
  | VNil => "<nil>"
  | VBool true => "true"
  | VBool false => "false"
  | VInt n => itoa n
  | VFloat64 _ | VSlice _ | VMap _ => ""
  end.

(** ** The other entry points *)

(** The double quote, as a one-byte string. *)
Definition dq : string := String "034"%char "".

(** The text before the payload in the reply of [TestRpc]:
    [{"ok": true, "msg": "RPC working!", "payload": ]. *)
Definition TestRpc_prefix : string :=
  "{" +:+ dq +:+ "ok" +:+ dq +:+ ": true, " +:+ dq +:+ "msg" +:+ dq +:+ ": "
  +:+ dq +:+ "RPC working!" +:+ dq +:+ ", " +:+ dq +:+ "payload" +:+ dq
  +:+ ": ".

(** TestRpc: the payload, as it came, between the prefix and a closing
    brace; the error is always [nil]. *)
Definition TestRpc (payload : string) : outcome string :=
  Ok (TestRpc_prefix +:+ payload +:+ "}").

(** The three handlers that [InitModule] registers. *)
Inductive handler : Type := HCreateGame | HMakeMove | HGetGame.

(** What [InitModule] does to the outside: a line of the log or a call of
    [initializer.RegisterRpc]. *)
Inductive init_event : Type :=
| LogInfo (msg : string)
| LogError (format : string) (err : string)
| RegisterRpc (id : string) (fn : handler).

Section Init.

(** The initializer of the host: whether [RegisterRpc id fn] returns an
    error, given the events so far. *)
Variable register : list init_event → string → handler → option string.

(** One [if err := initializer.RegisterRpc(id, fn); err != nil] block: the
    events so far extended by the call and, on an error, by the error line
    of the log, with the error. *)
Definition register_or_log (evs : list init_event) (id : string)
    (fn : handler) (format : string) : list init_event * option string :=
  match register evs id fn with
  | Some err => (evs ++ [RegisterRpc id fn; LogError format err], Some err)
  | None => (evs ++ [RegisterRpc id fn], None)
  end.

(** InitModule: the events it causes, in order, and the error it returns
    ([None] is [nil]). *)
Definition InitModule : list init_event * option string :=
  let evs := [LogInfo "Loading TicTacToe Module..."] in
  match register_or_log evs "create_game" HCreateGame
          "Unable to register create_game: %v" with
  | (evs, Some err) => (evs, Some err)
  | (evs, None) =>
    match register_or_log evs "make_move" HMakeMove
            "Unable to register make_move: %v" with
    | (evs, Some err) => (evs, Some err)
    | (evs, None) =>
      match register_or_log evs "get_game" HGetGame
              "Unable to register get_game: %v" with
      | (evs, Some err) => (evs, Some err)
      | (evs, None) =>
        (evs ++ [LogInfo
           "TicTacToe RPCs registered: create_game, make_move, get_game"],
         None)
      end
    end
  end.

End Init.

(** * Vocabulary of the statements *)

Definition is_ascii (c : ascii) : Prop := byte_val c < 128.

(** The three cells of line [l] hold the same byte [a], and it is not the
    empty cell. *)
Definition line_holds (board : string) (l : Z * Z * Z) (a : ascii) : Prop :=
  index board l.1.1 = Some a ∧ index board l.1.2 = Some a ∧
  index board l.2 = Some a ∧ a ≠ "-"%char.

(** Line number [k] of [ws] is the first one that holds on [board]. *)
Definition first_line (board : string) (ws : list (Z * Z * Z)) (k : nat)
    (a : ascii) : Prop :=
  ∃ l, ws !! k = Some l ∧ line_holds board l a ∧
       ∀ j l' a', (j < k)%nat → ws !! j = Some l' → ¬ line_holds board l' a'.

Definition no_line (board : string) (ws : list (Z * Z * Z)) : Prop :=
  ∀ l a, l ∈ ws → ¬ line_holds board l a.

Definition line_in_range (board : string) (l : Z * Z * Z) : Prop :=
  0 <= l.1.1 < len board ∧ 0 <= l.1.2 < len board ∧ 0 <= l.2 < len board.

Definition cell_ok (c : ascii) : Prop :=
  c = "-"%char ∨ c = "X"%char ∨ c = "O"%char.

Definition board_wf (b : string) : Prop :=
  length (bytes b) = 9%nat ∧ Forall cell_ok (bytes b).

Definition game_wf (g : Game) : Prop :=
  board_wf (Board g) ∧ (Turn g = "X" ∨ Turn g = "O").

(** No empty cell remains. *)
Definition board_full (b : string) : Prop := "-"%char ∉ bytes b.

(** [g'] is [g] after the player to move has marked [cell]: the mark is
    written, then (a) a line holds and its mark is the winner, or (b) no
    line holds, the board is full and the game is a draw, or (c) the turn
    passes to the other player. *)
Definition moved (g : Game) (cell : Z) (g' : Game) : Prop :=
  ∃ t, Turn g = String t "" ∧ ID g' = ID g ∧
    bytes (Board g') = <[Z.to_nat cell := t]> (bytes (Board g)) ∧
    ((∃ k a, first_line (Board g') winLines k a ∧
             Winner g' = String a "" ∧ Turn g' = Turn g) ∨
     (no_line (Board g') winLines ∧ board_full (Board g') ∧
      Winner g' = "draw" ∧ Turn g' = Turn g) ∨
     (no_line (Board g') winLines ∧ ¬ board_full (Board g') ∧
      Winner g' = Winner g ∧
      (Turn g = "X" → Turn g' = "O") ∧ (Turn g = "O" → Turn g' = "X"))).

(** Number of cells of [b] that hold [c]. *)
Definition count (c : ascii) (b : string) : nat :=
  length (filter (λ x, x = c) (bytes b)).

(** The X player opens and the players alternate: O never leads, X leads
    by at most one, and while the game is in progress the turn is the one
    given by the parity of the marks laid. *)
Definition game_inv (g : Game) : Prop :=
  game_wf g ∧
  (count "O" (Board g) <= count "X" (Board g) <= count "O" (Board g) + 1)%nat ∧
  (Winner g = "" →
   (Turn g = "X" ∧ count "X" (Board g) = count "O" (Board g)) ∨
   (Turn g = "O" ∧ count "X" (Board g) = S (count "O" (Board g)))).

(** Every record sits under its own identifier and satisfies [game_inv]. *)
Definition store_inv (games : gmap string Game) : Prop :=
  ∀ gid g, games !! gid = Some g → ID g = gid ∧ game_inv g.

Definition mv (gid : string) (cell : Z) : call :=
  MakeMove (move_payload (VString gid) (num cell)).

(** X takes the top row with the ninth mark. *)
Definition last_cell_win : list call :=
  [CreateGame 7; mv "g-7" 0; mv "g-7" 3; mv "g-7" 1; mv "g-7" 4; mv "g-7" 5;
   mv "g-7" 7; mv "g-7" 6; mv "g-7" 8; mv "g-7" 2].

(** Nine marks and no line. *)
Definition drawn_game : list call :=
  [CreateGame 7; mv "g-7" 0; mv "g-7" 1; mv "g-7" 2; mv "g-7" 4; mv "g-7" 3;
   mv "g-7" 5; mv "g-7" 7; mv "g-7" 6; mv "g-7" 8].

(** The number denoted by a [float64] lies between the integers [lo] and
    [hi]. *)
Definition float64_between (lo hi : Z) (f : spec_float) : Prop :=
  match f with
  | S754_zero _ => lo <= 0 <= hi
  | S754_finite s m e =>
    let n := if s then Z.neg m else Z.pos m in
    if 0 <=? e then lo <= n * 2 ^ e <= hi
    else lo * 2 ^ (- e) <= n <= hi * 2 ^ (- e)
  | S754_infinity _ | S754_nan => False
  end.

(** The cell fields that the handler turns away: a number whose integer
    part is outside 0..8, a string for which the value returned by [Atoi]
    (its error is dropped by the handler) is outside 0..8, and every value
    that is neither a number nor a string.  A string of digits too long for
    an int64 is among them, since [Atoi] returns the nearest bound; a string
    for which [Atoi] returns 0 with a syntax error is not. *)
Definition rejected_cell (cellF : value) : Prop :=
  match cellF with
  | VFloat64 v => ¬ 0 <= int_of_float64 v <= 8
  | VInt n => ¬ 0 <= n <= 8
  | VString s => ¬ 0 <= fst (Atoi s) <= 8
  | VNil | VBool _ | VSlice _ | VMap _ => True
  end.

(** From board [b] to board [b']: same length, and every cell is as it was
    or was empty and now holds a mark. *)
Definition cells_kept (b b' : string) : Prop :=
  length (bytes b') = length (bytes b) ∧
  ∀ i c c', bytes b !! i = Some c → bytes b' !! i = Some c' →
            c' = c ∨ (c = "-"%char ∧ (c' = "X"%char ∨ c' = "O"%char)).

(** ** Vocabulary of the further properties *)

(** Mark [a] has one of the eight lines on [board]. *)
Definition has_line (board : string) (a : ascii) : Prop :=
  ∃ l, l ∈ winLines ∧ line_holds board l a.

(** What the winner field says about the board: in progress, no line
    holds and a cell is empty; at a draw no line holds and no cell is
    empty; otherwise the winner is the mark that moved last and the only
    one with a line. *)
Definition result_inv (g : Game) : Prop :=
  (Winner g = "" ∧ no_line (Board g) winLines ∧ ¬ board_full (Board g)) ∨
  (Winner g = "draw" ∧ no_line (Board g) winLines ∧ board_full (Board g)) ∨
  (∃ t, (t = "X"%char ∨ t = "O"%char) ∧
        Winner g = String t "" ∧ Turn g = String t "" ∧
        has_line (Board g) t ∧ ∀ a, has_line (Board g) a → a = t).

(** The marks on the board of a game that was won. *)
Definition final_counts (g : Game) : Prop :=
  (Winner g = "X" → count "X" (Board g) = S (count "O" (Board g))) ∧
  (Winner g = "O" → count "X" (Board g) = count "O" (Board g)).

(** The invariant of the table, with the facts about finished games and
    the form of the identifiers. *)
Definition store_inv2 (games : gmap string Game) : Prop :=
  store_inv games ∧
  ∀ gid g, games !! gid = Some g →
    result_inv g ∧ final_counts g ∧ ∃ r, 0 <= r < 1000000 ∧ gid = genID r.

(** The calls that do not create a game. *)
Definition not_create (c : call) : Prop :=
  match c with
  | CreateGame _ => False
  | MakeMove _ | GetGame _ => True
  end.

(** The number denoted by a [float64] lies strictly between the integers
    [lo] and [hi]. *)
Definition float64_strictly_between (lo hi : Z) (f : spec_float) : Prop :=
  match f with
  | S754_zero _ => lo < 0 < hi
  | S754_finite s m e =>
    let n := if s then Z.neg m else Z.pos m in
    if 0 <=? e then lo < n * 2 ^ e < hi
    else lo * 2 ^ (- e) < n < hi * 2 ^ (- e)
  | S754_infinity _ | S754_nan => False
  end.

(** The calls of [RegisterRpc] among the events, in order. *)
Definition registrations (evs : list init_event) : list (string * handler) :=
  omap (λ e, match e with
             | RegisterRpc id fn => Some (id, fn)
             | _ => None
             end) evs.

(** The three registrations of a complete [InitModule]. *)
Definition all_rpcs : list (string * handler) :=
  [("create_game", HCreateGame); ("make_move", HMakeMove);
   ("get_game", HGetGame)].

Section Counting.

Variable Sprint : value → string.

(** The key of the table that a payload of [makeMoveRPC] addresses. *)
Definition target (p : option (gmap string value)) : option string :=
  match p with
  | Some inp => Sprint <$> inp !! "game_id"
  | None => None
  end.

(** The payload [p] asks for a move on cell [cell] of game [gid]. *)
Definition names (gid : string) (cell : Z)
    (p : option (gmap string value)) : Prop :=
  ∃ inp gidRaw cellF,
    p = Some inp ∧ inp !! "game_id" = Some gidRaw ∧ Sprint gidRaw = gid ∧
    inp !! "cell" = Some cellF ∧ cell_of cellF = Some cell.

(** How many of the calls [makeMoveRPC games p], made one after the other
    for the payloads of [ps], succeed on the game [gid]. *)
Fixpoint accepted (games : gmap string Game)
    (ps : list (option (gmap string value))) (gid : string) : nat :=
  match ps with
  | [] => 0%nat
  | p :: ps' =>
    let '(games', o) := makeMoveRPC Sprint games p in
    ((match o with
      | Ok _ => if bool_decide (target p = Some gid) then 1 else 0
      | _ => 0
      end) + accepted games' ps' gid)%nat
  end.

End Counting.

(** * Properties *)

(** ** The embedding on concrete inputs *)

Example runes_ascii_ex : runes "-X-" = [45; 88; 45].
Proof. reflexivity. Qed.

Example runes_two_byte_ex :
  runes (of_bytes [byte_of 195; byte_of 169; "-"%char]) = [233; 45].
Proof. reflexivity. Qed.

Example runes_invalid_ex :
  runes (of_bytes [byte_of 195; "-"%char]) = [RuneError; 45].
Proof. reflexivity. Qed.

Example of_runes_ex :
  bytes (of_runes [233; 88]) = [byte_of 195; byte_of 169; "X"%char].
Proof. reflexivity. Qed.

Example itoa_ex : itoa 0 = "0" ∧ itoa 123456 = "123456" ∧ itoa (-7) = "-7".
Proof. repeat split; reflexivity. Qed.

Example Atoi_ex :
  Atoi "4" = (4, true) ∧ Atoi "+08" = (8, true) ∧ Atoi "-3" = (-3, true) ∧
  Atoi "abc" = (0, false) ∧ Atoi "" = (0, false) ∧ Atoi "7x" = (0, false) ∧
  Atoi "99999999999999999999" = (MaxInt64, false) ∧
  Atoi "99999999999999999999x" = (MaxInt64, false) ∧
  Atoi "9223372036854775808x" = (0, false) ∧
  Atoi "-9223372036854775808" = (MinInt64, true) ∧
  Atoi "-99999999999999999999" = (MinInt64, false) ∧
  Atoi "+" = (0, false) ∧ Atoi "1-2" = (0, false).
Proof. repeat split; reflexivity. Qed.

(** 8.5 = 17 * 2^-1,  -0.5 = -(1 * 2^-1),  9 = 9 * 2^0 *)
Example int_of_float64_ex :
  int_of_float64 (S754_finite false 17 (-1)) = 8 ∧
  int_of_float64 (S754_finite true 1 (-1)) = 0 ∧
  int_of_float64 (S754_finite false 9 0) = 9 ∧
  int_of_float64 (S754_finite false 1 200) = MinInt64.
Proof. repeat split; reflexivity. Qed.

Example checkWinner_ex :
  checkWinner "XXX-OO---" = Some "X" ∧ checkWinner "X-O-O-O-X" = Some "O" ∧
  checkWinner "XOXXOOOXX" = Some "" ∧ checkWinner "XXX" = Some "X" ∧
  checkWinner "XX-" = None.
Proof. repeat split; reflexivity. Qed.

Example scenario_ex :
  let s := run sprint_basic ∅
    [CreateGame 7; MakeMove (move_payload (VString "g-7") (num 4));
     MakeMove (move_payload (VString "g-7") (num 0))] in
  s !! "g-7" = Some {| ID := "g-7"; Board := "O---X----"; Turn := "X"; Winner := "" |}.
Proof. vm_compute. reflexivity. Qed.

(** ** Facts about strings over 7-bit bytes *)

Lemma bytes_of_bytes l : bytes (of_bytes l) = l.
Proof. apply list_ascii_of_string_of_list_ascii. Qed.

Lemma of_bytes_bytes s : of_bytes (bytes s) = s.
Proof. apply string_of_list_ascii_of_string. Qed.

Lemma byte_val_range c : 0 <= byte_val c < 256.
Proof.
  unfold byte_val. pose proof (N_ascii_bounded c). lia.
Qed.

Lemma byte_of_val c : byte_of (byte_val c) = c.
Proof.
  unfold byte_of. pose proof (byte_val_range c) as Hr.
  rewrite Z.mod_small by lia. unfold byte_val.
  rewrite N2Z.id. apply ascii_N_embedding.
Qed.

Lemma DecodeRune_ascii c l : is_ascii c → DecodeRune (c :: l) = (byte_val c, 1%nat).
Proof.
  unfold is_ascii. intros H. cbn [DecodeRune].
  destruct (Z.ltb_spec (byte_val c) 128); [reflexivity | lia].
Qed.

Lemma decode_all_ascii l :
  Forall is_ascii l → ∀ fuel, (length l <= fuel)%nat →
  decode_all fuel l = byte_val <$> l.
Proof.
  induction 1 as [|c l Hc Hl IH]; intros fuel Hfuel.
  - destruct fuel; reflexivity.
  - destruct fuel as [|fuel]; [simpl in Hfuel; lia|].
    cbn [decode_all]. rewrite DecodeRune_ascii by assumption.
    cbn [drop]. rewrite drop_0, IH by (simpl in Hfuel; lia). reflexivity.
Qed.

Lemma runes_ascii s : Forall is_ascii (bytes s) → runes s = byte_val <$> bytes s.
Proof. intros H. unfold runes. now apply decode_all_ascii. Qed.

Lemma EncodeRune_ascii c : is_ascii c → EncodeRune (byte_val c) = [c].
Proof.
  unfold is_ascii. intros H. pose proof (byte_val_range c) as Hr.
  unfold EncodeRune.
  destruct (Z.ltb_spec (byte_val c) 0); [lia|].
  destruct (Z.leb_spec (byte_val c) 127); [|lia].
  now rewrite byte_of_val.
Qed.

Lemma of_runes_ascii l : Forall is_ascii l → of_runes (byte_val <$> l) = of_bytes l.
Proof.
  intros H. unfold of_runes. f_equal.
  induction H as [|c l Hc Hl IH]; [reflexivity|].
  cbn. rewrite EncodeRune_ascii by assumption. cbn. f_equal. exact IH.
Qed.

Lemma of_byte_ascii c : is_ascii c → of_byte c = String c "".
Proof.
  intros H. unfold of_byte.
  change [byte_val c] with (byte_val <$> [c]).
  rewrite of_runes_ascii by (constructor; [assumption|constructor]).
  reflexivity.
Qed.

(** Writing a 7-bit byte into the rune slice of a 7-bit string and
    converting back is the byte-wise update. *)
Lemma set_rune_ascii s i t :
  Forall is_ascii (bytes s) → is_ascii t →
  bytes (of_runes (<[i := byte_val t]> (runes s))) = <[i := t]> (bytes s).
Proof.
  intros Hs Ht. rewrite runes_ascii by assumption.
  rewrite <- list_fmap_insert, of_runes_ascii, bytes_of_bytes; [reflexivity|].
  destruct (decide (i < length (bytes s))%nat) as [Hi|Hi].
  - apply Forall_insert; assumption.
  - rewrite list_insert_ge by lia. assumption.
Qed.

Lemma runes_ascii_length s :
  Forall is_ascii (bytes s) → length (runes s) = length (bytes s).
Proof. intros H. rewrite runes_ascii by assumption. apply length_fmap. Qed.

Lemma index_lookup s i :
  0 <= i → index s i = bytes s !! Z.to_nat i.
Proof. intros H. unfold index. destruct (Z.ltb_spec i 0); [lia | reflexivity]. Qed.

Lemma contains_byte_spec s c :
  contains_byte s c = true ↔ c ∈ bytes s.
Proof.
  unfold contains_byte. rewrite existsb_exists. split.
  - intros (x & Hin & Hx). apply bool_decide_eq_true in Hx. subst.
    now apply list_elem_of_In.
  - intros Hin. exists c. split; [now apply list_elem_of_In|].
    now apply bool_decide_eq_true.
Qed.

(** ** Winning lines *)

Lemma index_in_range board i :
  0 <= i < len board → ∃ c, index board i = Some c.
Proof.
  unfold len. intros H. rewrite index_lookup by lia.
  destruct (lookup_lt_is_Some_2 (bytes board) (Z.to_nat i)) as [c Hc]; [lia|].
  eauto.
Qed.

Lemma of_byte_nonempty a : of_byte a ≠ "".
Proof.
  unfold of_byte, of_runes. cbn [map concat]. rewrite app_nil_r.
  intros H. apply (f_equal bytes) in H. rewrite bytes_of_bytes in H.
  unfold EncodeRune in H.
  repeat match type of H with
         | (if ?b then _ else _) = _ => destruct b
         end; discriminate H.
Qed.

Lemma checkLines_cons_holds board l ws a :
  line_holds board l a → checkLines board (l :: ws) = Some (of_byte a).
Proof.
  destruct l as [[w0 w1] w2]. intros (H0 & H1 & H2 & Ha). cbn in H0, H1, H2.
  cbn [checkLines]. rewrite H0, H1, H2.
  rewrite !bool_decide_eq_true_2 by done. reflexivity.
Qed.

Lemma checkLines_cons_skip board l ws :
  line_in_range board l → (∀ a, ¬ line_holds board l a) →
  checkLines board (l :: ws) = checkLines board ws.
Proof.
  destruct l as [[w0 w1] w2]. intros (R0 & R1 & R2) Hno. cbn in R0, R1, R2.
  destruct (index_in_range board w0 R0) as [a Ha].
  destruct (index_in_range board w1 R1) as [b Hb].
  destruct (index_in_range board w2 R2) as [c Hc].
  cbn [checkLines]. rewrite Ha, Hb, Hc.
  destruct (bool_decide (a ≠ "-"%char)) eqn:E1; [|reflexivity].
  destruct (bool_decide (a = b)) eqn:E2; [|reflexivity].
  destruct (bool_decide (b = c)) eqn:E3; [|reflexivity].
  apply bool_decide_eq_true in E1, E2, E3. subst b c.
  exfalso. apply (Hno a). repeat split; assumption.
Qed.

Lemma line_holds_dec board l :
  line_in_range board l → (∃ a, line_holds board l a) ∨ (∀ a, ¬ line_holds board l a).
Proof.
  destruct l as [[w0 w1] w2]. intros (R0 & R1 & R2). cbn in R0, R1, R2.
  destruct (index_in_range board w0 R0) as [a Ha].
  destruct (index_in_range board w1 R1) as [b Hb].
  destruct (index_in_range board w2 R2) as [c Hc].
  destruct (decide (a ≠ "-"%char ∧ a = b ∧ b = c)) as [(? & ? & ?)|Hn].
  - subst. left. exists c. repeat split; assumption.
  - right. intros a' (H0 & H1 & H2 & Hd). cbn in H0, H1, H2.
    apply Hn. rewrite Ha in H0. rewrite Hb in H1. rewrite Hc in H2.
    simplify_eq. done.
Qed.

(** The loop returns the byte of the first line that holds, as a string,
    and the empty string when none does; it does not panic when every
    index is in range. *)
Lemma checkLines_spec board ws :
  Forall (line_in_range board) ws →
  (∃ k a, first_line board ws k a ∧ checkLines board ws = Some (of_byte a)) ∨
  (no_line board ws ∧ checkLines board ws = Some "").
Proof.
  induction 1 as [|l ws Hl Hws IH].
  - right. split; [|reflexivity]. intros l a Hin. inversion Hin.
  - destruct (line_holds_dec board l Hl) as [[a Ha]|Hno].
    + left. exists 0%nat, a. split; [|now apply checkLines_cons_holds].
      exists l. split; [reflexivity|]. split; [assumption|]. intros; lia.
    + rewrite (checkLines_cons_skip board l ws Hl Hno).
      destruct IH as [(k & a & (l0 & Hk & Hh & Hfirst) & Hc)|[Hnl Hc]].
      * left. exists (S k), a. split; [|assumption].
        exists l0. split; [assumption|]. split; [assumption|].
        intros [|j] l' a' Hj Hlk.
        -- cbn in Hlk. simplify_eq. apply Hno.
        -- cbn in Hlk. apply (Hfirst j); [lia | assumption].
      * right. split; [|assumption].
        intros l' a' Hin. apply elem_of_cons in Hin as [->|Hin];
          [apply Hno | now apply Hnl].
Qed.

Lemma winLines_in_range board :
  (9 <= length (bytes board))%nat → Forall (line_in_range board) winLines.
Proof.
  intros H. unfold winLines, line_in_range, len.
  repeat constructor; cbn; lia.
Qed.

(** C2.  On every 9-cell board [checkWinner] goes through the eight lines
    0-1-2, 3-4-5, 6-7-8, 0-3-6, 1-4-7, 2-5-8, 0-4-8, 2-4-6 in this order and
    returns the mark of the first line whose three cells hold the same
    non-empty mark; when no line holds it returns the empty string.  It
    never panics there; it reads its argument only and has no access to the
    table of games. *)
Theorem checkWinner_first_line (board : string) :
  length (bytes board) = 9%nat →
  winLines = [ (0, 1, 2); (3, 4, 5); (6, 7, 8); (0, 3, 6); (1, 4, 7);
               (2, 5, 8); (0, 4, 8); (2, 4, 6) ] ∧
  ((∃ k a, first_line board winLines k a ∧
           checkWinner board = Some (of_byte a) ∧
           (is_ascii a → checkWinner board = Some (String a ""))) ∨
   (no_line board winLines ∧ checkWinner board = Some "")).
Proof.
  intros Hlen. split; [reflexivity|].
  destruct (checkLines_spec board winLines) as [(k & a & Hf & Hc)|[Hn Hc]].
  - apply winLines_in_range. lia.
  - left. exists k, a. split; [assumption|]. split; [assumption|].
    intros Ha. unfold checkWinner. rewrite Hc. now rewrite of_byte_ascii.
  - right. split; assumption.
Qed.

Lemma checkWinner_first_line_witness :
  length (bytes "OXXOX-O--") = 9%nat ∧ checkWinner "OXXOX-O--" = Some "O" ∧
  ((∃ k a, first_line "OXXOX-O--" winLines k a ∧
           checkWinner "OXXOX-O--" = Some (of_byte a) ∧
           (is_ascii a → checkWinner "OXXOX-O--" = Some (String a ""))) ∨
   (no_line "OXXOX-O--" winLines ∧ checkWinner "OXXOX-O--" = Some "")).
Proof.
  split; [reflexivity|]. split; [reflexivity|].
  apply (checkWinner_first_line "OXXOX-O--"). reflexivity.
Defined.

(** ** Well-formed games and the effect of a move *)

Lemma cell_ok_ascii c : cell_ok c → is_ascii c.
Proof. intros [->|[->| ->]]; reflexivity. Qed.

Lemma board_wf_ascii b : board_wf b → Forall is_ascii (bytes b).
Proof. intros [_ H]. eapply Forall_impl; [exact H | apply cell_ok_ascii]. Qed.

Lemma turn_mark g :
  game_wf g → ∃ t, Turn g = String t "" ∧ (t = "X"%char ∨ t = "O"%char).
Proof.
  intros [_ [H|H]]; rewrite H; [exists "X"%char | exists "O"%char]; auto.
Qed.

Lemma board_wf_insert b b' i t :
  board_wf b → (t = "X"%char ∨ t = "O"%char) →
  bytes b' = <[i := t]> (bytes b) → board_wf b'.
Proof.
  intros [Hlen Hall] Ht Hb'. unfold board_wf. rewrite Hb'. split.
  - now rewrite length_insert.
  - destruct (decide (i < length (bytes b))%nat).
    + apply Forall_insert; [assumption|]. unfold cell_ok. tauto.
    + now rewrite list_insert_ge by lia.
Qed.

Lemma line_holds_elem board l a : line_holds board l a → a ∈ bytes board.
Proof.
  intros (H & _). unfold index in H.
  destruct (l.1.1 <? 0); [discriminate|].
  eapply list_elem_of_lookup_2. exact H.
Qed.

(** On a well-formed game and a cell index in range, the statements that
    apply the move do not panic and produce a game related to the old one
    by [moved]. *)
Lemma applyMove_moved games gid game cell :
  game_wf game → 0 <= cell <= 8 →
  ∃ game', applyMove games gid game cell
             = (<[gid := game']> games, Ok (moveResp game')) ∧
           moved game cell game'.
Proof.
  intros Hwf Hcell. pose proof Hwf as [Hb Hturn].
  destruct (turn_mark game Hwf) as (t & Ht & Hmark).
  pose proof (board_wf_ascii _ Hb) as Hascii.
  assert (is_ascii t) as Hta
    by (destruct Hmark as [-> | ->]; reflexivity).
  assert (index (Turn game) 0 = Some t) as Hidx by (now rewrite Ht).
  unfold applyMove. rewrite Hidx.
  rewrite runes_ascii_length by assumption.
  destruct Hb as [Hlen Hall]. rewrite Hlen.
  destruct (Z.leb_spec (Z.of_nat 9) cell) as [?|_]; [lia|].
  set (board' := of_runes (<[Z.to_nat cell := byte_val t]> (runes (Board game)))).
  assert (bytes board' = <[Z.to_nat cell := t]> (bytes (Board game))) as Hb'
    by (apply set_rune_ascii; assumption).
  assert (board_wf board') as Hwf'
    by (eapply board_wf_insert; [split| |]; eassumption).
  unfold checkWinner.
  destruct (checkLines_spec board' winLines) as [(k & a & Hf & Hc)|[Hn Hc]].
  { apply winLines_in_range. destruct Hwf' as [-> _]. lia. }
  - rewrite Hc.
    assert (is_ascii a) as Ha.
    { destruct Hf as (l & _ & Hh & _). apply line_holds_elem in Hh.
      destruct Hwf' as [_ Hall']. rewrite Forall_forall in Hall'.
      apply cell_ok_ascii, Hall', Hh. }
    rewrite of_byte_ascii by assumption.
    rewrite bool_decide_eq_true_2 by discriminate.
    eexists. split; [reflexivity|].
    exists t. cbn. repeat split; try assumption; try reflexivity.
    left. exists k, a. auto.
  - rewrite Hc. rewrite bool_decide_eq_false_2 by (intros H; now apply H).
    destruct (contains_byte board' "-"%char) eqn:Hfull; cbn [negb].
    + eexists. split; [reflexivity|].
      exists t. cbn. repeat split; try assumption; try reflexivity.
      right. right. split; [assumption|]. split.
      { unfold board_full. intros Hnot. apply Hnot.
        now apply contains_byte_spec. }
      split; [reflexivity|]. split; intros Hx.
      * now rewrite bool_decide_eq_true_2.
      * rewrite bool_decide_eq_false_2; [reflexivity|].
        rewrite Hx. discriminate.
    + eexists. split; [reflexivity|].
      exists t. cbn. repeat split; try assumption; try reflexivity.
      right. left. split; [assumption|]. split; [|auto].
      unfold board_full. intros Hin. apply contains_byte_spec in Hin.
      congruence.
Qed.

(** ** Counting marks *)

Lemma count_insert_same (l : list ascii) i (t : ascii) :
  l !! i = Some "-"%char → t ≠ "-"%char →
  length (filter (λ x, x = t) (<[i := t]> l))
  = S (length (filter (λ x, x = t) l)).
Proof.
  intros Hi Ht. pose proof (lookup_lt_Some _ _ _ Hi) as Hlt.
  rewrite insert_take_drop by assumption.
  rewrite <- (take_drop_middle l i _ Hi) at 3.
  rewrite !filter_app, !filter_cons, !length_app.
  destruct (decide (t = t)) as [_|]; [|done].
  destruct (decide ("-"%char = t)) as [<-|_]; [done|].
  cbn [length]. lia.
Qed.

Lemma count_insert_other (l : list ascii) i (t c : ascii) :
  l !! i = Some "-"%char → c ≠ t → c ≠ "-"%char →
  length (filter (λ x, x = c) (<[i := t]> l))
  = length (filter (λ x, x = c) l).
Proof.
  intros Hi Hct Hc. pose proof (lookup_lt_Some _ _ _ Hi) as Hlt.
  rewrite insert_take_drop by assumption.
  rewrite <- (take_drop_middle l i _ Hi) at 3.
  rewrite !filter_app, !filter_cons, !length_app.
  destruct (decide (t = c)) as [->|_]; [done|].
  destruct (decide ("-"%char = c)) as [<-|_]; [done|].
  reflexivity.
Qed.

(** ** The invariant of the table *)

Lemma moved_inv g cell g' :
  game_inv g → Winner g = "" → 0 <= cell →
  index (Board g) cell = Some "-"%char →
  moved g cell g' → game_inv g'.
Proof.
  intros (Hwf & Hcnt & Hturn) Hw Hcell Hempty (t & Ht & _ & Hb & Hcase).
  rewrite index_lookup in Hempty by assumption.
  destruct (Hturn Hw) as [[HX Heq]|[HO Heq]].
  - (* X to move *)
    assert (t = "X"%char) as -> by congruence.
    assert (count "X" (Board g') = S (count "X" (Board g))) as HcX
      by (unfold count; rewrite Hb; now apply count_insert_same).
    assert (count "O" (Board g') = count "O" (Board g)) as HcO
      by (unfold count; rewrite Hb; now apply count_insert_other).
    assert (board_wf (Board g')) as Hbwf
      by (eapply board_wf_insert; [apply Hwf | | exact Hb]; auto).
    unfold game_inv, game_wf. rewrite HcX, HcO.
    destruct Hcase as [(k & a & _ & Hwin & Hturn')
                      |[(_ & _ & Hwin & Hturn')|(_ & _ & Hwin & HXO & _)]].
    + rewrite Hwin, Hturn'.
      repeat split; try lia; try apply Hbwf; try apply Hwf; discriminate.
    + rewrite Hwin, Hturn'.
      repeat split; try lia; try apply Hbwf; try apply Hwf; discriminate.
    + rewrite (HXO HX). repeat split; try lia; try apply Hbwf; auto.
  - (* O to move *)
    assert (t = "O"%char) as -> by congruence.
    assert (count "O" (Board g') = S (count "O" (Board g))) as HcO
      by (unfold count; rewrite Hb; now apply count_insert_same).
    assert (count "X" (Board g') = count "X" (Board g)) as HcX
      by (unfold count; rewrite Hb; now apply count_insert_other).
    assert (board_wf (Board g')) as Hbwf
      by (eapply board_wf_insert; [apply Hwf | | exact Hb]; auto).
    unfold game_inv, game_wf. rewrite HcX, HcO.
    destruct Hcase as [(k & a & _ & Hwin & Hturn')
                      |[(_ & _ & Hwin & Hturn')|(_ & _ & Hwin & _ & HOX)]].
    + rewrite Hwin, Hturn'.
      repeat split; try lia; try apply Hbwf; try apply Hwf; discriminate.
    + rewrite Hwin, Hturn'.
      repeat split; try lia; try apply Hbwf; try apply Hwf; discriminate.
    + rewrite (HOX HO). repeat split; try lia; try apply Hbwf; auto.
Qed.

Lemma store_inv_wf games :
  store_inv games → ∀ gid g, games !! gid = Some g → game_wf g.
Proof. intros Hinv gid g Hg. now destruct (Hinv gid g Hg) as [_ [? _]]. Qed.

Lemma newBoard_counts : count "X" newBoard = 0%nat ∧ count "O" newBoard = 0%nat.
Proof. split; vm_compute; reflexivity. Qed.

Lemma newBoard_wf : board_wf newBoard.
Proof.
  split; [reflexivity|]. cbn. repeat constructor; unfold cell_ok; auto.
Qed.

Lemma fresh_game_inv id :
  game_inv {| ID := id; Board := newBoard; Turn := "X"; Winner := "" |}.
Proof.
  destruct newBoard_counts as [HX HO].
  unfold game_inv, game_wf. cbn [Board Turn Winner]. rewrite HX, HO.
  split; [split; [apply newBoard_wf | now left]|].
  split; [lia|]. intros _. now left.
Qed.

Section Invariants.

Variable Sprint : value → string.

(** On a table of well-formed games [makeMoveRPC] either returns an error
    and the table as it was, or applies one move to one game in
    progress, on an empty cell. *)
Lemma makeMoveRPC_cases games p :
  (∀ gid g, games !! gid = Some g → game_wf g) →
  (∃ msg, makeMoveRPC Sprint games p = (games, Err msg)) ∨
  (∃ gid g cell g',
      games !! gid = Some g ∧ Winner g = "" ∧ 0 <= cell <= 8 ∧
      index (Board g) cell = Some "-"%char ∧
      makeMoveRPC Sprint games p = (<[gid := g']> games, Ok (moveResp g')) ∧
      moved g cell g').
Proof.
  intros Hwf. unfold makeMoveRPC.
  destruct p as [inp|]; [|left; eauto].
  destruct (inp !! "game_id") as [gidRaw|]; [|left; eauto].
  destruct (inp !! "cell") as [cellF|]; [|left; eauto].
  destruct (cell_of cellF) as [cell|]; [|left; eauto].
  destruct ((cell <? 0) || (8 <? cell)) eqn:Hrange; [left; eauto|].
  apply orb_false_iff in Hrange as [H0 H8].
  apply Z.ltb_ge in H0, H8.
  destruct (games !! Sprint gidRaw) as [game|] eqn:Hgame; [|left; eauto].
  case_bool_decide as Hw; [left; eauto|].
  assert (Winner game = "") as Hw' by (destruct (decide (Winner game = "")); tauto).
  pose proof (Hwf _ _ Hgame) as Hg.
  destruct (index_in_range (Board game) cell) as [c Hc].
  { unfold len. destruct Hg as [[-> _] _]. lia. }
  rewrite Hc. case_bool_decide as Hocc; [left; eauto|].
  assert (c = "-"%char) as -> by (destruct (decide (c = "-"%char)); tauto).
  destruct (applyMove_moved games (Sprint gidRaw) game cell Hg) as (g' & Happ & Hm);
    [lia|].
  right. exists (Sprint gidRaw), game, cell, g'. repeat split; auto; lia.
Qed.

Lemma makeMoveRPC_inv games p :
  store_inv games → store_inv (fst (makeMoveRPC Sprint games p)).
Proof.
  intros Hinv.
  destruct (makeMoveRPC_cases games p (store_inv_wf games Hinv))
    as [[msg ->]|(gid & g & cell & g' & Hg & Hw & Hc & He & -> & Hm)].
  - assumption.
  - cbn [fst]. intros gid0 g0 Hg0.
    destruct (decide (gid = gid0)) as [->|Hne].
    + rewrite lookup_insert_eq in Hg0. simplify_eq.
      destruct (Hinv gid0 g Hg) as [Hid Hgi]. split.
      * destruct Hm as (t & _ & Hid' & _). congruence.
      * apply (moved_inv g cell g0); auto. lia.
    + rewrite lookup_insert_ne in Hg0 by assumption. now apply (Hinv gid0 g0).
Qed.

Lemma createGameRPC_inv r games :
  store_inv games → store_inv (fst (createGameRPC r games)).
Proof.
  intros Hinv gid g. cbn [createGameRPC fst].
  destruct (decide (genID r = gid)) as [->|Hne].
  - rewrite lookup_insert_eq. intros [= <-].
    split; [reflexivity | apply fresh_game_inv].
  - rewrite lookup_insert_ne by assumption. apply Hinv.
Qed.

Lemma getGameRPC_same games p : fst (getGameRPC Sprint games p) = games.
Proof.
  unfold getGameRPC. destruct p as [inp|]; [|reflexivity].
  destruct (inp !! "game_id"); [|reflexivity].
  destruct (games !! _); reflexivity.
Qed.

Lemma step_inv games c : store_inv games → store_inv (step Sprint games c).
Proof.
  intros Hinv. destruct c as [r|p|p]; cbn [step].
  - now apply createGameRPC_inv.
  - now apply makeMoveRPC_inv.
  - now rewrite getGameRPC_same.
Qed.

Lemma run_inv cs : ∀ games, store_inv games → store_inv (run Sprint games cs).
Proof.
  induction cs as [|c cs IH]; intros games Hinv; [assumption|].
  cbn. apply IH. now apply step_inv.
Qed.

Lemma reachable_inv games : reachable Sprint games → store_inv games.
Proof.
  intros (cs & _ & <-). apply run_inv. intros gid g Hg.
  rewrite lookup_empty in Hg. discriminate.
Qed.

(** A reachable table never makes [makeMoveRPC] panic. *)
Lemma makeMoveRPC_no_panic games p :
  reachable Sprint games → snd (makeMoveRPC Sprint games p) ≠ Panic.
Proof.
  intros Hr. apply reachable_inv in Hr.
  destruct (makeMoveRPC_cases games p (store_inv_wf games Hr))
    as [[msg ->]|(gid & g & cell & g' & _ & _ & _ & _ & -> & _)];
    discriminate.
Qed.

End Invariants.

(** ** Concrete games *)

Example last_cell_win_ex :
  run sprint_basic ∅ last_cell_win !! "g-7"
  = Some {| ID := "g-7"; Board := "XXXOOXXOO"; Turn := "X"; Winner := "X" |}.
Proof. vm_compute. reflexivity. Qed.

Example drawn_game_ex :
  run sprint_basic ∅ (removelast drawn_game) !! "g-7"
  = Some {| ID := "g-7"; Board := "XOXXOOOX-"; Turn := "X"; Winner := "" |} ∧
  run sprint_basic ∅ drawn_game !! "g-7"
  = Some {| ID := "g-7"; Board := "XOXXOOOXX"; Turn := "X"; Winner := "draw" |}.
Proof. split; vm_compute; reflexivity. Qed.

(** Well-formedness of a literal game. *)
Ltac solve_game_wf :=
  split;
  [ split; [reflexivity|]; cbn;
    repeat (apply List.Forall_cons; [unfold cell_ok; auto|]);
    apply List.Forall_nil
  | auto ].

Lemma reachable_run cs :
  Forall (call_ok) cs → reachable sprint_basic (run sprint_basic ∅ cs).
Proof. intros H. exists cs. split; [assumption | reflexivity]. Qed.

(** ** The move *)

(** C1.  On a game in progress (a board of nine cells over '-', 'X', 'O', a
    turn that is X or O, no winner yet) a move on an empty cell with index
    in 0..8 succeeds: the mark of the player to move is written into that
    cell, and then, in this order, (a) if one of the eight lines 0-1-2,
    3-4-5, 6-7-8, 0-3-6, 1-4-7, 2-5-8, 0-4-8, 2-4-6 holds, the winner is the
    mark of the first such line and the turn stays, (b) otherwise if no
    cell is empty the winner is "draw", (c) otherwise the turn passes to
    the other player.  The game so obtained is stored under the identifier
    and returned in the response with ok, its board, its turn and its
    winner.  Whenever a line holds after the move, also on a board that
    the move has filled, the winner is that mark and not "draw". *)
Theorem makeMove_applies_move (Sprint : value → string)
    (games : gmap string Game) (inp : gmap string value)
    (gidRaw cellF : value) (cell : Z) (game : Game) :
  inp !! "game_id" = Some gidRaw →
  inp !! "cell" = Some cellF →
  cell_of cellF = Some cell →
  0 <= cell <= 8 →
  games !! Sprint gidRaw = Some game →
  game_wf game →
  Winner game = "" →
  index (Board game) cell = Some "-"%char →
  let lines := [ (0, 1, 2); (3, 4, 5); (6, 7, 8); (0, 3, 6); (1, 4, 7);
                 (2, 5, 8); (0, 4, 8); (2, 4, 6) ] in
  ∃ game' t,
    makeMoveRPC Sprint games (Some inp)
      = (<[Sprint gidRaw := game']> games,
         Ok {| mr_ok := true; mr_game := game'; mr_board := Board game';
               mr_turn := Turn game'; mr_winner := Winner game' |}) ∧
    ID game' = ID game ∧
    Turn game = String t "" ∧
    bytes (Board game') = <[Z.to_nat cell := t]> (bytes (Board game)) ∧
    ((∃ k a, first_line (Board game') lines k a ∧
             Winner game' = String a "" ∧ Turn game' = Turn game) ∨
     (no_line (Board game') lines ∧ board_full (Board game') ∧
      Winner game' = "draw" ∧ Turn game' = Turn game) ∨
     (no_line (Board game') lines ∧ ¬ board_full (Board game') ∧
      Winner game' = "" ∧
      (Turn game = "X" → Turn game' = "O") ∧
      (Turn game = "O" → Turn game' = "X"))) ∧
    (∀ l a, l ∈ lines → line_holds (Board game') l a →
            board_full (Board game') →
            ∃ m, Winner game' = String m "" ∧ Winner game' ≠ "draw").
Proof.
  intros Hgid Hcellf Hcellof Hrange Hgame Hwf Hw Hempty lines.
  assert (lines = winLines) as Hlines by reflexivity.
  clearbody lines. subst lines.
  destruct (applyMove_moved games (Sprint gidRaw) game cell Hwf Hrange)
    as (game' & Happ & t & Ht & Hid & Hb & Hcase).
  exists game', t. unfold makeMoveRPC.
  rewrite Hgid, Hcellf, Hcellof, Hgame, Hempty.
  destruct (Z.ltb_spec cell 0); [lia|].
  destruct (Z.ltb_spec 8 cell); [lia|]. cbn [orb].
  rewrite bool_decide_eq_false_2 by (intros H'; now apply H').
  rewrite bool_decide_eq_false_2 by (intros H'; now apply H').
  split; [exact Happ|]. split; [exact Hid|]. split; [exact Ht|].
  split; [exact Hb|]. split.
  - rewrite Hw in Hcase. exact Hcase.
  - intros l a Hl Hh _.
    destruct Hcase as [(k & a' & _ & Hwin & _)|[(Hno & _)|(Hno & _)]].
    + exists a'. split; [exact Hwin|]. rewrite Hwin. discriminate.
    + exfalso. exact (Hno l a Hl Hh).
    + exfalso. exact (Hno l a Hl Hh).
Qed.

(** X completes the top row 0-1-2 with the ninth mark: the game stored and
    returned has the full board, winner "X" and not "draw". *)
Lemma makeMove_applies_move_witness :
  let games := run sprint_basic ∅ (removelast last_cell_win) in
  let game' := {| ID := "g-7"; Board := "XXXOOXXOO"; Turn := "X"; Winner := "X" |} in
  games !! "g-7"
    = Some {| ID := "g-7"; Board := "XX-OOXXOO"; Turn := "X"; Winner := "" |} ∧
  makeMoveRPC sprint_basic games (move_payload (VString "g-7") (num 2))
    = (<["g-7" := game']> games,
       Ok {| mr_ok := true; mr_game := game'; mr_board := "XXXOOXXOO";
             mr_turn := "X"; mr_winner := "X" |}) ∧
  board_full "XXXOOXXOO" ∧ Winner game' = "X" ∧ Winner game' ≠ "draw".
Proof.
  intros games game'.
  assert (games !! "g-7"
          = Some {| ID := "g-7"; Board := "XX-OOXXOO"; Turn := "X";
                    Winner := "" |}) as Hg by (vm_compute; reflexivity).
  split; [exact Hg|].
  destruct (makeMove_applies_move sprint_basic games
              (<["game_id" := VString "g-7"]> (<["cell" := num 2]> ∅))
              (VString "g-7") (num 2) 2
              {| ID := "g-7"; Board := "XX-OOXXOO"; Turn := "X"; Winner := "" |})
    as (g1 & t & Hcall & Hid & Ht & Hb & Hcase & _).
  - vm_compute. reflexivity.
  - vm_compute. reflexivity.
  - reflexivity.
  - lia.
  - exact Hg.
  - solve_game_wf.
  - reflexivity.
  - reflexivity.
  - cbn [Turn ID Board] in Ht, Hid, Hb, Hcase. injection Ht as <-.
    assert (Board g1 = "XXXOOXXOO") as Hboard.
    { rewrite <- (of_bytes_bytes (Board g1)), Hb. reflexivity. }
    assert (line_holds (Board g1) (0, 1, 2) "X") as Htop
      by (rewrite Hboard; repeat split; discriminate).
    assert (Winner g1 = "X" ∧ Turn g1 = "X") as [Hwin Hturn].
    { destruct Hcase as [(k & a & (l & Hk & Hh & Hfirst) & Hwin & Hturn)
                        |[(Hno & _)|(Hno & _)]].
      - destruct k as [|k].
        + injection Hk as <-. destruct Hh as (H0 & _).
          rewrite Hboard in H0. injection H0 as <-. auto.
        + exfalso. apply (Hfirst 0%nat (0, 1, 2) "X"%char);
            [lia | reflexivity | exact Htop].
      - exfalso. apply (Hno (0, 1, 2) "X"%char); [now left | exact Htop].
      - exfalso. apply (Hno (0, 1, 2) "X"%char); [now left | exact Htop]. }
    assert (g1 = game') as Hg1.
    { destruct g1 as [i b tu w]. cbn in Hid, Hboard, Hwin, Hturn.
      subst. reflexivity. }
    rewrite Hg1 in Hcall.
    split; [exact Hcall|]. split; [|split; [reflexivity | discriminate]].
    unfold board_full. cbn. intros Hin.
    repeat (apply elem_of_cons in Hin as [Hin|Hin]; [discriminate|]).
    inversion Hin.
Defined.

(** ** Failing calls *)

Lemma applyMove_not_err games gid game cell games' msg :
  applyMove games gid game cell ≠ (games', Err msg).
Proof.
  unfold applyMove.
  destruct (index (Turn game) 0); [|discriminate].
  destruct (_ <=? cell); [discriminate|].
  destruct (checkWinner _); discriminate.
Qed.

(** Whatever the table holds, an error return hands it back as it was. *)
Lemma makeMoveRPC_err_same Sprint games p games' msg :
  makeMoveRPC Sprint games p = (games', Err msg) → games' = games.
Proof.
  unfold makeMoveRPC.
  destruct p as [inp|]; [|congruence].
  destruct (inp !! "game_id") as [gidRaw|]; [|congruence].
  destruct (inp !! "cell") as [cellF|]; [|congruence].
  destruct (cell_of cellF) as [cell|]; [|congruence].
  destruct ((cell <? 0) || (8 <? cell)); [congruence|].
  destruct (games !! Sprint gidRaw) as [game|]; [|congruence].
  destruct (bool_decide (Winner game ≠ "")); [congruence|].
  destruct (index (Board game) cell) as [c|]; [|congruence].
  destruct (bool_decide (c ≠ "-"%char)); [congruence|].
  intros H. now apply applyMove_not_err in H.
Qed.

(** A finished game, and a move on it whose cell index is 9: the call is
    refused for the index, not for the finished game. *)
Lemma finished_game_bad_index_error :
  let games := run sprint_basic ∅ last_cell_win in
  games !! "g-7"
    = Some {| ID := "g-7"; Board := "XXXOOXXOO"; Turn := "X"; Winner := "X" |} ∧
  makeMoveRPC sprint_basic games (move_payload (VString "g-7") (num 9))
    = (games, Err "cell index out of range") ∧
  snd (makeMoveRPC sprint_basic games (move_payload (VString "g-7") (num 9)))
    ≠ Err "game already finished".
Proof.
  cbv zeta. split; [vm_compute; reflexivity|].
  assert (makeMoveRPC sprint_basic (run sprint_basic ∅ last_cell_win)
            (move_payload (VString "g-7") (num 9))
          = (run sprint_basic ∅ last_cell_win, Err "cell index out of range"))
    as H by reflexivity.
  split; [exact H|]. rewrite H. discriminate.
Qed.

(** C3, amended.  A [makeMoveRPC] call that returns an error leaves the
    table of games, hence every record (id, board, turn, winner), exactly
    as it was.  Once the winner of a game is set, every further call on its
    identifier returns an error and changes nothing; the error is
    "game already finished" whenever the payload carries a cell index in
    0..8 (the payload checks come first: a missing, ill-typed or
    out-of-range cell is reported as such). *)
Theorem makeMove_failure_keeps_record (Sprint : value → string)
    (games games' : gmap string Game) (p : option (gmap string value))
    (o : outcome MoveResp) :
  makeMoveRPC Sprint games p = (games', o) →
  (∀ msg, o = Err msg → games' = games) ∧
  (∀ inp gidRaw g,
      p = Some inp → inp !! "game_id" = Some gidRaw →
      games !! Sprint gidRaw = Some g → Winner g ≠ "" →
      games' = games ∧ games' !! Sprint gidRaw = Some g ∧
      ∃ msg, o = Err msg ∧
        (∀ cellF cell, inp !! "cell" = Some cellF →
                       cell_of cellF = Some cell → 0 <= cell <= 8 →
                       msg = "game already finished")).
Proof.
  intros Hcall. split.
  - intros msg ->. now apply makeMoveRPC_err_same in Hcall.
  - intros inp gidRaw g -> Hgid Hg Hw. revert Hcall. unfold makeMoveRPC.
    rewrite Hgid.
    destruct (inp !! "cell") as [cellF|].
    2:{ intros [= <- <-]. split; [reflexivity|]. split; [exact Hg|].
        eexists. split; [reflexivity|]. intros ? ? [=]. }
    destruct (cell_of cellF) as [cell|] eqn:Hco.
    2:{ intros [= <- <-]. split; [reflexivity|]. split; [exact Hg|].
        eexists. split; [reflexivity|]. intros ? ? [= <-] Hc. congruence. }
    destruct ((cell <? 0) || (8 <? cell)) eqn:Hrange.
    { intros [= <- <-]. split; [reflexivity|]. split; [exact Hg|].
      eexists. split; [reflexivity|]. intros ? c [= <-] Hc' Hc.
      assert (c = cell) as -> by congruence.
      apply orb_true_iff in Hrange as [H|H]; apply Z.ltb_lt in H; lia. }
    rewrite Hg. rewrite bool_decide_eq_true_2 by exact Hw.
    intros [= <- <-]. split; [reflexivity|]. split; [exact Hg|].
    eexists. split; reflexivity.
Qed.

Lemma makeMove_failure_keeps_record_witness :
  let games := run sprint_basic ∅ last_cell_win in
  let p := move_payload (VString "g-7") (num 4) in
  fst (makeMoveRPC sprint_basic games p) = games ∧
  snd (makeMoveRPC sprint_basic games p) = Err "game already finished".
Proof.
  intros games p.
  destruct (makeMove_failure_keeps_record sprint_basic games
              (fst (makeMoveRPC sprint_basic games p)) p
              (snd (makeMoveRPC sprint_basic games p)))
    as [_ Hfin].
  - symmetry. apply surjective_pairing.
  - destruct (Hfin (<["game_id" := VString "g-7"]> (<["cell" := num 4]> ∅))
                (VString "g-7")
                {| ID := "g-7"; Board := "XXXOOXXOO"; Turn := "X"; Winner := "X" |})
      as (Hsame & _ & msg & Hmsg & Hfinished).
    + reflexivity.
    + vm_compute. reflexivity.
    + vm_compute. reflexivity.
    + discriminate.
    + split; [exact Hsame|]. rewrite Hmsg. f_equal.
      apply (Hfinished (num 4) 4); [vm_compute; reflexivity | reflexivity | lia].
Defined.

(** ** Conversion of the cell field *)

(** The cell given as the string "3" is played as cell 3, and the cell
    given as the number 8.5 (17 * 2^-1) is played as cell 8. *)
Lemma makeMove_converts_cell :
  let games := run sprint_basic ∅ [CreateGame 1] in
  let game3 := {| ID := "g-1"; Board := "---X-----"; Turn := "O"; Winner := "" |} in
  let game8 := {| ID := "g-1"; Board := "--------X"; Turn := "O"; Winner := "" |} in
  games !! "g-1"
    = Some {| ID := "g-1"; Board := "---------"; Turn := "X"; Winner := "" |} ∧
  makeMoveRPC sprint_basic games (move_payload (VString "g-1") (VString "3"))
    = (<["g-1" := game3]> games, Ok (moveResp game3)) ∧
  ¬ float64_between 0 8 (S754_finite false 17 (-1)) ∧
  makeMoveRPC sprint_basic games
      (move_payload (VString "g-1") (VFloat64 (S754_finite false 17 (-1))))
    = (<["g-1" := game8]> games, Ok (moveResp game8)).
Proof.
  cbv zeta. split; [vm_compute; reflexivity|]. split; [reflexivity|].
  split; [cbn; lia | reflexivity].
Qed.

(** The cell given as the string "abc": [Atoi] fails, its error is dropped
    and its value 0 is kept, so the move is played on cell 0. *)
Example makeMove_unparsable_cell_ex :
  let games := run sprint_basic ∅ [CreateGame 1] in
  let game' := {| ID := "g-1"; Board := "X--------"; Turn := "O"; Winner := "" |} in
  Atoi "abc" = (0, false) ∧
  makeMoveRPC sprint_basic games (move_payload (VString "g-1") (VString "abc"))
    = (<["g-1" := game']> games, Ok (moveResp game')).
Proof. cbv zeta. split; reflexivity. Qed.

(** C4, amended.  For a payload that carries a game_id: when the cell
    field, converted to an integer the way the handler does it (a number
    is truncated toward zero; a string is read by Atoi, whose value is
    kept: the decimal integer, or the nearest int64 bound when the digits
    overflow), is outside 0..8, or when the cell field is neither a number
    nor a string, the call fails with an invalid-index error
    ("invalid cell index" or "cell index out of range") and the table is
    unchanged. *)
Theorem makeMove_rejects_cell (Sprint : value → string)
    (games : gmap string Game) (inp : gmap string value)
    (gidRaw cellF : value) :
  inp !! "game_id" = Some gidRaw →
  inp !! "cell" = Some cellF →
  rejected_cell cellF →
  ∃ msg, makeMoveRPC Sprint games (Some inp) = (games, Err msg) ∧
         (msg = "invalid cell index" ∨ msg = "cell index out of range").
Proof.
  intros Hgid Hcellf Hrej. unfold makeMoveRPC. rewrite Hgid, Hcellf.
  assert (∀ cell, ¬ 0 <= cell <= 8 → (cell <? 0) || (8 <? cell) = true)
    as Hout.
  { intros cell Hc. apply orb_true_iff.
    destruct (Z.ltb_spec cell 0); [now left|].
    destruct (Z.ltb_spec 8 cell); [now right | lia]. }
  destruct cellF as [|b|v|n|s|l|m]; cbn [cell_of rejected_cell] in *;
    try (eexists; split; [reflexivity | now left]).
  - rewrite (Hout _ Hrej). eexists; split; [reflexivity | now right].
  - rewrite (Hout _ Hrej). eexists; split; [reflexivity | now right].
  - rewrite (Hout _ Hrej). eexists; split; [reflexivity | now right].
Qed.

(** Twenty nines do not fit an int64: Atoi answers the upper bound, and
    the move is refused. *)
Lemma makeMove_rejects_cell_witness :
  let games := run sprint_basic ∅ [CreateGame 1] in
  Atoi "99999999999999999999" = (MaxInt64, false) ∧
  ∃ msg,
    makeMoveRPC sprint_basic games
        (move_payload (VString "g-1") (VString "99999999999999999999"))
      = (games, Err msg) ∧
    (msg = "invalid cell index" ∨ msg = "cell index out of range").
Proof.
  intros games. split; [vm_compute; reflexivity|].
  apply (makeMove_rejects_cell sprint_basic games
           (<["game_id" := VString "g-1"]>
              (<["cell" := VString "99999999999999999999"]> ∅))
           (VString "g-1") (VString "99999999999999999999")).
  - vm_compute. reflexivity.
  - vm_compute. reflexivity.
  - cbn [rejected_cell].
    change (fst (Atoi "99999999999999999999")) with 9223372036854775807. lia.
Defined.

(** ** Order of the checks *)

(** The cell 8.5 (17 * 2^-1) is a number outside 0..8; it is truncated to
    8, the index check passes and the table is consulted. *)
Lemma fractional_cell_reaches_lookup :
  let cellF := VFloat64 (S754_finite false 17 (-1)) in
  ¬ float64_between 0 8 (S754_finite false 17 (-1)) ∧
  cell_of cellF = Some 8 ∧
  makeMoveRPC sprint_basic ∅ (move_payload (VString "g-1") cellF)
    = (∅, Err "game not found") ∧
  snd (makeMoveRPC sprint_basic ∅ (move_payload (VString "g-1") cellF))
    ≠ Err "cell index out of range".
Proof.
  cbv zeta. split; [cbn; lia|]. split; [reflexivity|].
  assert (makeMoveRPC sprint_basic ∅
            (move_payload (VString "g-1") (VFloat64 (S754_finite false 17 (-1))))
          = (∅, Err "game not found")) as H by reflexivity.
  split; [exact H|]. rewrite H. discriminate.
Qed.

(** C10, amended.  When the payload carries a game_id and a cell that the
    handler converts to an integer outside 0..8 (a number, truncated toward
    zero, or a string, parsed as a decimal integer), the call returns
    "cell index out of range" whatever the table holds: the index check
    comes before the lookup, so the error is the same when the game_id is
    unknown. *)
Theorem makeMove_index_check_first (Sprint : value → string)
    (games : gmap string Game) (inp : gmap string value)
    (gidRaw cellF : value) (cell : Z) :
  inp !! "game_id" = Some gidRaw →
  inp !! "cell" = Some cellF →
  cell_of cellF = Some cell →
  cell < 0 ∨ 8 < cell →
  makeMoveRPC Sprint games (Some inp) = (games, Err "cell index out of range").
Proof.
  intros Hgid Hcellf Hcellof Hout. unfold makeMoveRPC.
  rewrite Hgid, Hcellf, Hcellof.
  destruct (Z.ltb_spec cell 0); [reflexivity|].
  destruct (Z.ltb_spec 8 cell); [reflexivity|]. lia.
Qed.

Lemma makeMove_index_check_first_witness :
  makeMoveRPC sprint_basic ∅ (move_payload (VString "nobody") (num 9))
  = (∅, Err "cell index out of range").
Proof.
  apply (makeMove_index_check_first sprint_basic ∅
           (<["game_id" := VString "nobody"]> (<["cell" := num 9]> ∅))
           (VString "nobody") (num 9) 9).
  - vm_compute. reflexivity.
  - vm_compute. reflexivity.
  - reflexivity.
  - lia.
Defined.

(** ** Creating games *)

Lemma run_snoc Sprint games cs c :
  run Sprint games (cs ++ [c]) = step Sprint (run Sprint games cs) c.
Proof. unfold run. now rewrite fold_left_app. Qed.

Lemma reachable_step Sprint games c :
  reachable Sprint games → call_ok c → reachable Sprint (step Sprint games c).
Proof.
  intros (cs & Hok & <-) Hc. exists (cs ++ [c]). split.
  - apply Forall_app. split; [assumption|]. now constructor.
  - apply run_snoc.
Qed.

(** The same draw twice: the second game takes the place of the first,
    whose move is lost. *)
Lemma createGame_same_draw_replaces :
  let games := run sprint_basic ∅ [CreateGame 7; mv "g-7" 4] in
  reachable sprint_basic games ∧
  0 <= 7 < 1000000 ∧
  games !! genID 7
    = Some {| ID := "g-7"; Board := "----X----"; Turn := "O"; Winner := "" |} ∧
  fst (createGameRPC 7 games) !! genID 7
    = Some {| ID := "g-7"; Board := "---------"; Turn := "X"; Winner := "" |} ∧
  fst (createGameRPC 7 games) !! genID 7 ≠ games !! genID 7.
Proof.
  cbv zeta. split.
  { apply reachable_run. repeat constructor; cbn; lia. }
  split; [lia|].
  assert (run sprint_basic ∅ [CreateGame 7; mv "g-7" 4] !! genID 7
          = Some {| ID := "g-7"; Board := "----X----"; Turn := "O"; Winner := "" |})
    as H1 by (vm_compute; reflexivity).
  assert (fst (createGameRPC 7 (run sprint_basic ∅ [CreateGame 7; mv "g-7" 4]))
            !! genID 7
          = Some {| ID := "g-7"; Board := "---------"; Turn := "X"; Winner := "" |})
    as H2 by (vm_compute; reflexivity).
  split; [exact H1|]. split; [exact H2|]. rewrite H1, H2. discriminate.
Qed.

(** C5, amended.  The table holds one record per identifier, each under
    its own id.  [createGameRPC] stores the new game under "g-" followed by
    the number drawn, without looking at the table: the records under all
    other identifiers are untouched, so when the drawn identifier is not
    live nothing is overwritten or replaced; under the drawn identifier the
    table then holds the new game. *)
Theorem createGame_keeps_other_records (Sprint : value → string)
    (r : Z) (games : gmap string Game) :
  reachable Sprint games → 0 <= r < 1000000 →
  let games' := fst (createGameRPC r games) in
  reachable Sprint games' ∧
  (∀ gid g, games' !! gid = Some g → ID g = gid) ∧
  games' !! genID r
    = Some {| ID := genID r; Board := newBoard; Turn := "X"; Winner := "" |} ∧
  (∀ gid, gid ≠ genID r → games' !! gid = games !! gid) ∧
  (games !! genID r = None →
   ∀ gid g, games !! gid = Some g → games' !! gid = Some g).
Proof.
  intros Hreach Hr games'.
  assert (reachable Sprint games') as Hreach'
    by (apply (reachable_step Sprint games (CreateGame r)); assumption).
  split; [exact Hreach'|]. split.
  { intros gid g Hg. now destruct (reachable_inv Sprint games' Hreach' gid g Hg). }
  subst games'. cbn [createGameRPC fst]. split; [apply lookup_insert_eq|].
  split.
  - intros gid Hne. now apply lookup_insert_ne.
  - intros Hfresh gid g Hg. rewrite lookup_insert_ne; [exact Hg|].
    intros <-. congruence.
Qed.

Lemma createGame_keeps_other_records_witness :
  let games := run sprint_basic ∅ [CreateGame 7; mv "g-7" 4] in
  fst (createGameRPC 8 games) !! "g-7"
  = Some {| ID := "g-7"; Board := "----X----"; Turn := "O"; Winner := "" |}.
Proof.
  intros games.
  destruct (createGame_keeps_other_records sprint_basic 8 games)
    as (_ & _ & _ & _ & Hkept).
  - apply reachable_run. repeat constructor; cbn; lia.
  - lia.
  - apply Hkept; vm_compute; reflexivity.
Defined.

(** C8.  [createGameRPC] makes a game with the nine-cell board "---------",
    turn X and no winner, stores it under its identifier, where a following
    [getGameRPC] on that identifier finds it, and returns ok with the id,
    the board and the turn. *)
Theorem createGame_fresh_game (Sprint : value → string) (r : Z)
    (games : gmap string Game) (inp : gmap string value) (gidRaw : value) :
  inp !! "game_id" = Some gidRaw → Sprint gidRaw = genID r →
  ∃ games' game,
    game = {| ID := genID r; Board := "---------"; Turn := "X"; Winner := "" |} ∧
    createGameRPC r games
      = (games', Ok {| cr_ok := true; cr_game_id := genID r;
                       cr_board := "---------"; cr_turn := "X" |}) ∧
    length (bytes (Board game)) = 9%nat ∧
    (∀ i c, bytes (Board game) !! i = Some c → c = "-"%char) ∧
    games' !! genID r = Some game ∧
    getGameRPC Sprint games' (Some inp)
      = (games', Ok {| gr_ok := true; gr_game := game |}).
Proof.
  intros Hgid Hfmt. eexists _, _. split; [reflexivity|].
  split; [reflexivity|]. split; [reflexivity|]. split.
  - intros i c Hc. apply list_elem_of_lookup_2 in Hc. cbn in Hc.
    repeat (apply elem_of_cons in Hc as [->|Hc]; [reflexivity|]).
    inversion Hc.
  - split; [apply lookup_insert_eq|].
    unfold getGameRPC. rewrite Hgid, Hfmt, lookup_insert_eq. reflexivity.
Qed.

Lemma createGame_fresh_game_witness :
  ∃ games',
    createGameRPC 42 ∅
      = (games', Ok {| cr_ok := true; cr_game_id := "g-42";
                       cr_board := "---------"; cr_turn := "X" |}) ∧
    getGameRPC sprint_basic games' (Some (<["game_id" := VString "g-42"]> ∅))
      = (games', Ok {| gr_ok := true;
                       gr_game := {| ID := "g-42"; Board := "---------";
                                     Turn := "X"; Winner := "" |} |}).
Proof.
  destruct (createGame_fresh_game sprint_basic 42 ∅
              (<["game_id" := VString "g-42"]> ∅) (VString "g-42"))
    as (games' & game & -> & Hcreate & _ & _ & _ & Hget).
  - vm_compute. reflexivity.
  - reflexivity.
  - exists games'. split; [exact Hcreate | exact Hget].
Defined.

(** ** Alternation of the turns *)

(** C6.  In every table the server can reach, every game has O never ahead
    of X and X ahead by at most one mark; while it is in progress the turn
    is X when both have as many marks and O when X has one more: X opens
    and the turns alternate X, O, X, O, ...  A [makeMoveRPC] call either
    leaves the game as it is or, when the game is still in progress after
    it, has passed the turn to the other player. *)
Theorem turn_alternates (Sprint : value → string)
    (games : gmap string Game) (gid : string) (g : Game) :
  reachable Sprint games → games !! gid = Some g →
  (count "O" (Board g) <= count "X" (Board g) <= count "O" (Board g) + 1)%nat ∧
  (Winner g = "" →
   (Turn g = "X" ∧ count "X" (Board g) = count "O" (Board g)) ∨
   (Turn g = "O" ∧ count "X" (Board g) = S (count "O" (Board g)))) ∧
  (∀ p, ∃ g', fst (makeMoveRPC Sprint games p) !! gid = Some g' ∧
     (g' = g ∨
      (Winner g = "" ∧
       (Winner g' = "" →
        (Turn g = "X" ∧ Turn g' = "O") ∨ (Turn g = "O" ∧ Turn g' = "X"))))).
Proof.
  intros Hreach Hg. pose proof (reachable_inv Sprint games Hreach) as Hinv.
  destruct (Hinv gid g Hg) as (_ & Hwf & Hcnt & Hturn).
  split; [exact Hcnt|]. split; [exact Hturn|].
  intros p.
  destruct (makeMoveRPC_cases Sprint games p (store_inv_wf games Hinv))
    as [[msg ->]|(gid0 & g0 & cell & g' & Hg0 & Hw & Hc & He & -> & Hm)].
  - exists g. split; [exact Hg | now left].
  - cbn [fst]. destruct (decide (gid0 = gid)) as [->|Hne].
    + rewrite lookup_insert_eq. exists g'. split; [reflexivity|].
      assert (g0 = g) as -> by congruence.
      right. split; [exact Hw|]. intros Hw'.
      destruct Hm as (t & _ & _ & _ & [(k & a & _ & Hwin & _)
                                      |[(_ & _ & Hwin & _)|(_ & _ & _ & HXO & HOX)]]).
      * rewrite Hwin in Hw'. discriminate.
      * rewrite Hwin in Hw'. discriminate.
      * destruct Hwf as [_ [HX|HO]]; [left | right]; auto.
    + rewrite lookup_insert_ne by assumption. exists g.
      split; [exact Hg | now left].
Qed.

Lemma turn_alternates_witness :
  let games := run sprint_basic ∅ [CreateGame 7; mv "g-7" 4; mv "g-7" 0; mv "g-7" 8] in
  let g := {| ID := "g-7"; Board := "O---X---X"; Turn := "O"; Winner := "" |} in
  (count "O" (Board g) <= count "X" (Board g) <= count "O" (Board g) + 1)%nat ∧
  (Winner g = "" →
   (Turn g = "X" ∧ count "X" (Board g) = count "O" (Board g)) ∨
   (Turn g = "O" ∧ count "X" (Board g) = S (count "O" (Board g)))).
Proof.
  intros games g.
  destruct (turn_alternates sprint_basic games "g-7" g) as (Hcnt & Hturn & _).
  - apply reachable_run. repeat constructor; cbn; lia.
  - vm_compute. reflexivity.
  - split; [exact Hcnt | exact Hturn].
Defined.

(** ** Cells are filled once *)

Lemma cells_kept_refl b : cells_kept b b.
Proof. split; [reflexivity|]. intros i c c' H1 H2. left. congruence. Qed.

Lemma cells_kept_trans b1 b2 b3 :
  cells_kept b1 b2 → cells_kept b2 b3 → cells_kept b1 b3.
Proof.
  intros [Hl12 H12] [Hl23 H23]. split; [congruence|].
  intros i c1 c3 H1 H3.
  destruct (lookup_lt_is_Some_2 (bytes b2) i) as [c2 H2].
  { rewrite Hl12. eapply lookup_lt_Some. exact H1. }
  pose proof (H12 i c1 c2 H1 H2) as Ha.
  pose proof (H23 i c2 c3 H2 H3) as Hb.
  destruct Ha as [Ha|(Ha & Hm2)]; destruct Hb as [Hb|(Hb & Hm3)]; subst; auto;
    destruct Hm2; discriminate.
Qed.

Lemma moved_cells_kept g cell g' :
  game_wf g → 0 <= cell → index (Board g) cell = Some "-"%char →
  moved g cell g' → cells_kept (Board g) (Board g').
Proof.
  intros Hwf Hcell Hempty (t & Ht & _ & Hb & _).
  rewrite index_lookup in Hempty by assumption.
  assert (t = "X"%char ∨ t = "O"%char) as Hmark
    by (destruct Hwf as [_ [H|H]]; rewrite H in Ht; injection Ht; auto).
  split; [rewrite Hb; apply length_insert|].
  intros i c c' Hc Hc'. rewrite Hb in Hc'.
  destruct (decide (Z.to_nat cell = i)) as [<-|Hne].
  - rewrite list_lookup_insert_eq in Hc' by (eapply lookup_lt_Some; exact Hc).
    right. split; congruence.
  - rewrite list_lookup_insert_ne in Hc' by assumption. left. congruence.
Qed.

Lemma makeMoveRPC_cells_kept Sprint games p gid g :
  store_inv games → games !! gid = Some g →
  ∃ g', fst (makeMoveRPC Sprint games p) !! gid = Some g' ∧
        cells_kept (Board g) (Board g').
Proof.
  intros Hinv Hg.
  destruct (makeMoveRPC_cases Sprint games p (store_inv_wf games Hinv))
    as [[msg ->]|(gid0 & g0 & cell & g' & Hg0 & Hw & Hc & He & -> & Hm)].
  - exists g. split; [exact Hg | apply cells_kept_refl].
  - cbn [fst]. destruct (decide (gid0 = gid)) as [->|Hne].
    + rewrite lookup_insert_eq. exists g'. split; [reflexivity|].
      assert (g0 = g) as -> by congruence.
      apply (moved_cells_kept g cell g'); auto; [|lia].
      exact (store_inv_wf games Hinv gid g Hg).
    + rewrite lookup_insert_ne by assumption. exists g.
      split; [exact Hg | apply cells_kept_refl].
Qed.

Lemma run_moves_cells_kept Sprint ps :
  ∀ games gid g, store_inv games → games !! gid = Some g →
  ∃ g', run Sprint games (MakeMove <$> ps) !! gid = Some g' ∧
        game_wf g' ∧ cells_kept (Board g) (Board g').
Proof.
  induction ps as [|p ps IH]; intros games gid g Hinv Hg.
  - exists g. split; [exact Hg|].
    split; [exact (store_inv_wf games Hinv gid g Hg) | apply cells_kept_refl].
  - destruct (makeMoveRPC_cells_kept Sprint games p gid g Hinv Hg)
      as (g1 & Hg1 & Hk1).
    destruct (IH (fst (makeMoveRPC Sprint games p)) gid g1) as (g' & Hg' & Hwf' & Hk');
      [now apply makeMoveRPC_inv | exact Hg1 |].
    exists g'. split; [exact Hg'|]. split; [exact Hwf'|].
    eapply cells_kept_trans; eassumption.
Qed.

(** C7.  Along every sequence of [makeMoveRPC] calls from a reachable
    table, every game keeps a board of exactly nine cells, and each cell
    is what it was or was empty and has received a mark: no mark is ever
    erased or replaced. *)
Theorem board_cells_fill_once (Sprint : value → string)
    (games : gmap string Game) (ps : list (option (gmap string value)))
    (gid : string) (g : Game) :
  reachable Sprint games → games !! gid = Some g →
  ∃ g', run Sprint games (MakeMove <$> ps) !! gid = Some g' ∧
    length (bytes (Board g)) = 9%nat ∧
    length (bytes (Board g')) = 9%nat ∧
    ∀ i c c', bytes (Board g) !! i = Some c → bytes (Board g') !! i = Some c' →
              c' = c ∨ (c = "-"%char ∧ (c' = "X"%char ∨ c' = "O"%char)).
Proof.
  intros Hreach Hg. pose proof (reachable_inv Sprint games Hreach) as Hinv.
  destruct (run_moves_cells_kept Sprint ps games gid g Hinv Hg)
    as (g' & Hg' & [[Hlen' _] _] & [_ Hkept]).
  exists g'. split; [exact Hg'|].
  destruct (store_inv_wf games Hinv gid g Hg) as [[Hlen _] _].
  repeat split; assumption.
Qed.

Lemma board_cells_fill_once_witness :
  let games := run sprint_basic ∅ [CreateGame 7; mv "g-7" 4] in
  let ps := [move_payload (VString "g-7") (num 4);
             move_payload (VString "g-7") (num 0);
             move_payload (VString "g-7") (num 9)] in
  ∃ g', run sprint_basic games (MakeMove <$> ps) !! "g-7" = Some g' ∧
    length (bytes "----X----") = 9%nat ∧
    length (bytes (Board g')) = 9%nat ∧
    ∀ i c c', bytes "----X----" !! i = Some c → bytes (Board g') !! i = Some c' →
              c' = c ∨ (c = "-"%char ∧ (c' = "X"%char ∨ c' = "O"%char)).
Proof.
  intros games ps.
  apply (board_cells_fill_once sprint_basic games ps "g-7"
           {| ID := "g-7"; Board := "----X----"; Turn := "O"; Winner := "" |}).
  - apply reachable_run. repeat constructor; cbn; lia.
  - vm_compute. reflexivity.
Defined.


(** * Further properties of the handlers *)

(** ** Looking a game up *)

(** X1.  [getGameRPC] answers with a game exactly when the payload
    decodes, carries a game_id and the table holds a record under the text
    of that game_id, and the game it returns is that record; otherwise the
    error is "invalid payload JSON", "missing game_id" or "game not found",
    in this order of precedence.  In no case does it change the table or
    panic. *)
Theorem getGame_outcome (Sprint : value → string)
    (games : gmap string Game) (p : option (gmap string value)) :
  fst (getGameRPC Sprint games p) = games ∧
  (∀ resp, snd (getGameRPC Sprint games p) = Ok resp ↔
     ∃ inp gidRaw, p = Some inp ∧ inp !! "game_id" = Some gidRaw ∧
       games !! Sprint gidRaw = Some (gr_game resp) ∧ gr_ok resp = true) ∧
  (snd (getGameRPC Sprint games p) = Err "invalid payload JSON" ↔ p = None) ∧
  (snd (getGameRPC Sprint games p) = Err "missing game_id" ↔
     ∃ inp, p = Some inp ∧ inp !! "game_id" = None) ∧
  (snd (getGameRPC Sprint games p) = Err "game not found" ↔
     ∃ inp gidRaw, p = Some inp ∧ inp !! "game_id" = Some gidRaw ∧
       games !! Sprint gidRaw = None) ∧
  snd (getGameRPC Sprint games p) ≠ Panic.
Proof.
  split; [apply getGameRPC_same|]. unfold getGameRPC.
  destruct p as [inp|].
  2:{ cbn. repeat split; try discriminate; try done;
        try (intros (? & ? & ? & _); discriminate);
        try (intros (? & ? & _); discriminate). }
  destruct (inp !! "game_id") as [gidRaw|] eqn:Hgid.
  2:{ cbn. repeat split; try discriminate; try done;
        try (intros (? & ? & [= <-] & ? & _); congruence);
        try (intros _; eauto). }
  destruct (games !! Sprint gidRaw) as [game|] eqn:Hgame; cbn.
  - repeat split; try discriminate.
    + intros [= <-]. exists inp, gidRaw. cbn. auto.
    + intros (inp' & gidRaw' & [= <-] & Hg' & Hl & Hok).
      assert (gidRaw' = gidRaw) as -> by congruence.
      destruct resp as [ok g]. cbn in *. f_equal. f_equal; congruence.
    + intros (inp' & [= <-] & Hg'). congruence.
    + intros (inp' & gidRaw' & [= <-] & Hg' & Hl).
      assert (gidRaw' = gidRaw) as -> by congruence. congruence.
  - repeat split; try discriminate.
    + intros (inp' & gidRaw' & [= <-] & Hg' & Hl & Hok).
      assert (gidRaw' = gidRaw) as -> by congruence. congruence.
    + intros (inp' & [= <-] & Hg'). congruence.
    + intros _. eauto.
Qed.

(** ** The winner and the board *)

Lemma winLines_elem_in_range board l :
  (9 <= length (bytes board))%nat → l ∈ winLines → line_in_range board l.
Proof.
  intros Hlen Hl. pose proof (winLines_in_range board Hlen) as Hall.
  rewrite Forall_forall in Hall. now apply Hall.
Qed.

(** After a mark is written on a board without a line, every line that
    holds goes through the new mark. *)
Lemma lines_after_move b b' n t :
  length (bytes b) = 9%nat → (n < 9)%nat →
  bytes b' = <[n := t]> (bytes b) → no_line b winLines →
  ∀ a, has_line b' a → a = t.
Proof.
  intros Hlen Hn Hb' Hno a (l & Hl & Hh).
  assert (length (bytes b') = 9%nat) as Hlen'
    by (rewrite Hb', length_insert; exact Hlen).
  destruct (winLines_elem_in_range b' l) as (R0 & R1 & R2); [lia | exact Hl |].
  destruct Hh as (H0 & H1 & H2 & Hd).
  rewrite index_lookup in H0, H1, H2 by lia. rewrite Hb' in H0, H1, H2.
  destruct (decide (n = Z.to_nat l.1.1)) as [E0|E0].
  { subst n. rewrite list_lookup_insert_eq in H0 by lia. congruence. }
  destruct (decide (n = Z.to_nat l.1.2)) as [E1|E1].
  { subst n. rewrite list_lookup_insert_eq in H1 by lia. congruence. }
  destruct (decide (n = Z.to_nat l.2)) as [E2|E2].
  { subst n. rewrite list_lookup_insert_eq in H2 by lia. congruence. }
  rewrite list_lookup_insert_ne in H0, H1, H2 by assumption.
  exfalso. apply (Hno l a Hl).
  unfold line_holds. rewrite !index_lookup by lia. auto.
Qed.

Lemma first_line_has_line board k a :
  first_line board winLines k a → has_line board a.
Proof.
  intros (l & Hk & Hh & _). exists l. split; [|exact Hh].
  eapply list_elem_of_lookup_2. exact Hk.
Qed.

Lemma count_absent (l : list ascii) (c : ascii) :
  c ∉ l → length (filter (λ x, x = c) l) = 0%nat.
Proof.
  induction l as [|x l IH]; intros Hc; [reflexivity|].
  rewrite filter_cons. destruct (decide (x = c)) as [->|_].
  - exfalso. apply Hc. now left.
  - apply IH. intros Hin. apply Hc. now right.
Qed.

Lemma count_present (l : list ascii) (c : ascii) :
  c ∈ l → (1 <= length (filter (λ x, x = c) l))%nat.
Proof.
  induction l as [|x l IH]; intros Hc; [inversion Hc|].
  rewrite filter_cons. destruct (decide (x = c)) as [->|Hne]; cbn; [lia|].
  apply IH. apply elem_of_cons in Hc as [->|Hc]; [done | exact Hc].
Qed.

(** The cells of a well-formed board are the empty ones, the X and the O. *)
Lemma count_total (l : list ascii) :
  Forall cell_ok l →
  (length (filter (λ x, x = "-"%char) l) + length (filter (λ x, x = "X"%char) l)
   + length (filter (λ x, x = "O"%char) l) = length l)%nat.
Proof.
  induction 1 as [|c l Hc Hl IH]; [reflexivity|].
  rewrite !filter_cons.
  destruct Hc as [->|[->| ->]];
    repeat match goal with
           | |- context [decide (?a = ?b)] =>
               destruct (decide (a = b)); try done
           end; cbn [length]; lia.
Qed.

Lemma board_counts b :
  board_wf b → (count "-" b + count "X" b + count "O" b = 9)%nat.
Proof. intros [Hlen Hall]. unfold count. rewrite count_total; assumption. Qed.

Lemma count_insert_empty (l : list ascii) i (t : ascii) :
  l !! i = Some "-"%char → t ≠ "-"%char →
  S (length (filter (λ x, x = "-"%char) (<[i := t]> l)))
  = length (filter (λ x, x = "-"%char) l).
Proof.
  intros Hi Ht. pose proof (lookup_lt_Some _ _ _ Hi) as Hlt.
  rewrite insert_take_drop by assumption.
  rewrite <- (take_drop_middle l i _ Hi) at 3.
  rewrite !filter_app, !filter_cons, !length_app.
  destruct (decide (t = "-"%char)) as [|_]; [done|].
  destruct (decide ("-"%char = "-"%char)) as [_|]; [|done].
  cbn [length]. lia.
Qed.

Lemma newBoard_no_line : no_line newBoard winLines.
Proof.
  intros l a _ Hh. pose proof (line_holds_elem _ _ _ Hh) as Hin.
  destruct Hh as (_ & _ & _ & Hd). apply Hd.
  cbn in Hin. repeat (apply elem_of_cons in Hin as [->|Hin]; [reflexivity|]).
  inversion Hin.
Qed.

Lemma fresh_result_inv id :
  result_inv {| ID := id; Board := newBoard; Turn := "X"; Winner := "" |}.
Proof.
  left. cbn [Winner Board]. split; [reflexivity|].
  split; [apply newBoard_no_line|]. intros Hfull. apply Hfull.
  cbn. now left.
Qed.

(** A move on a game in progress keeps [result_inv] and [final_counts]. *)
Lemma moved_result_inv g cell g' :
  game_inv g → result_inv g → Winner g = "" → 0 <= cell <= 8 →
  index (Board g) cell = Some "-"%char → moved g cell g' →
  result_inv g' ∧ final_counts g'.
Proof.
  intros (Hwf & Hcnt & Hturn) Hres Hw Hcell Hempty Hm.
  pose proof Hm as (t & Ht & _ & Hb & Hcase).
  rewrite index_lookup in Hempty by lia.
  assert (no_line (Board g) winLines) as Hno.
  { destruct Hres as [(_ & H & _)|[(H & _)|(t' & _ & H & _)]];
      [exact H | congruence | congruence]. }
  assert (t = "X"%char ∨ t = "O"%char) as Hmark
    by (destruct Hwf as [_ [H|H]]; rewrite H in Ht; injection Ht; auto).
  destruct Hwf as [[Hlen Hall] _].
  assert (∀ a, has_line (Board g') a → a = t) as Honly.
  { apply (lines_after_move (Board g) (Board g') (Z.to_nat cell));
      [exact Hlen | lia | exact Hb | exact Hno]. }
  assert (t ≠ "-"%char) as Htd by (destruct Hmark as [-> | ->]; discriminate).
  destruct Hcase as [(k & a & Hf & Hwin & Hturn')
                    |[(Hn & Hfull & Hwin & Hturn')|(Hn & Hnf & Hwin & _)]].
  - pose proof (first_line_has_line _ _ _ Hf) as Hhas.
    assert (a = t) as -> by (now apply Honly).
    split.
    + right. right. exists t. rewrite Hturn', Ht. auto.
    + unfold final_counts, count. rewrite Hwin, Hb.
      destruct (Hturn Hw) as [[HX Heq]|[HO Heq]].
      * assert (t = "X"%char) as -> by congruence.
        split; [|discriminate]. intros _.
        rewrite count_insert_same, count_insert_other by done.
        unfold count in Heq. lia.
      * assert (t = "O"%char) as -> by congruence.
        split; [discriminate|]. intros _.
        rewrite count_insert_same, count_insert_other by done.
        unfold count in Heq. lia.
  - split; [right; left; auto|].
    unfold final_counts. rewrite Hwin. split; discriminate.
  - split; [left; rewrite Hwin; auto|].
    unfold final_counts. rewrite Hwin, Hw. split; discriminate.
Qed.

Section Invariants2.

Variable Sprint : value → string.

Lemma makeMoveRPC_inv2 games p :
  store_inv2 games → store_inv2 (fst (makeMoveRPC Sprint games p)).
Proof.
  intros [Hinv Hinv2]. split; [now apply makeMoveRPC_inv|].
  destruct (makeMoveRPC_cases Sprint games p (store_inv_wf games Hinv))
    as [[msg ->]|(gid & g & cell & g' & Hg & Hw & Hc & He & -> & Hm)].
  - assumption.
  - cbn [fst]. intros gid0 g0 Hg0.
    destruct (decide (gid = gid0)) as [->|Hne].
    + rewrite lookup_insert_eq in Hg0. simplify_eq.
      destruct (Hinv gid0 g Hg) as [_ Hgi].
      destruct (Hinv2 gid0 g Hg) as (Hres & _ & Hform).
      destruct (moved_result_inv g cell g0 Hgi Hres Hw Hc He Hm) as [? ?].
      auto.
    + rewrite lookup_insert_ne in Hg0 by assumption. now apply (Hinv2 gid0 g0).
Qed.

Lemma createGameRPC_inv2 r games :
  0 <= r < 1000000 → store_inv2 games →
  store_inv2 (fst (createGameRPC r games)).
Proof.
  intros Hr [Hinv Hinv2]. split; [now apply createGameRPC_inv|].
  intros gid g. cbn [createGameRPC fst].
  destruct (decide (genID r = gid)) as [<-|Hne].
  - rewrite lookup_insert_eq. intros [= <-].
    split; [apply fresh_result_inv|]. split; [|eauto].
    split; discriminate.
  - rewrite lookup_insert_ne by assumption. apply Hinv2.
Qed.

Lemma step_inv2 games c :
  call_ok c → store_inv2 games → store_inv2 (step Sprint games c).
Proof.
  intros Hc Hinv. destruct c as [r|p|p]; cbn [step].
  - now apply createGameRPC_inv2.
  - now apply makeMoveRPC_inv2.
  - now rewrite getGameRPC_same.
Qed.

Lemma run_inv2 cs :
  ∀ games, Forall call_ok cs → store_inv2 games →
           store_inv2 (run Sprint games cs).
Proof.
  induction cs as [|c cs IH]; intros games Hok Hinv; [assumption|].
  apply Forall_cons in Hok as [Hc Hok]. cbn. apply IH; [exact Hok|].
  now apply step_inv2.
Qed.

Lemma reachable_inv2 games : reachable Sprint games → store_inv2 games.
Proof.
  intros (cs & Hok & <-). apply run_inv2; [exact Hok|].
  split; intros gid g Hg; rewrite lookup_empty in Hg; discriminate.
Qed.

End Invariants2.

(** X2.  In every table the server can reach, the winner field of a game
    is "", "draw", "X" or "O" and agrees with its board: while it is "" no
    line holds and a cell is empty; when it is "draw" no line holds and no
    cell is empty; when it is a mark, that mark has a line, no other mark
    has one, and the turn field still names that mark (the player who
    moved last). *)
Theorem winner_matches_board (Sprint : value → string)
    (games : gmap string Game) (gid : string) (g : Game) :
  reachable Sprint games → games !! gid = Some g →
  (Winner g = "" ∨ Winner g = "draw" ∨ Winner g = "X" ∨ Winner g = "O") ∧
  (Winner g = "" → no_line (Board g) winLines ∧ ¬ board_full (Board g)) ∧
  (Winner g = "draw" → no_line (Board g) winLines ∧ board_full (Board g)) ∧
  (∀ t, Winner g = String t "" →
        (t = "X"%char ∨ t = "O"%char) ∧ Turn g = String t "" ∧
        has_line (Board g) t ∧ ∀ a, has_line (Board g) a → a = t).
Proof.
  intros Hreach Hg.
  destruct (reachable_inv2 Sprint games Hreach) as [_ Hinv2].
  destruct (Hinv2 gid g Hg) as (Hres & _ & _).
  destruct Hres as [(Hw & Hn & Hf)|[(Hw & Hn & Hf)|(t & Ht & Hw & Hturn & Hl & Honly)]].
  - split; [auto|]. split; [auto|]. split.
    + intros Hd. congruence.
    + intros t Ht. congruence.
  - split; [auto|]. split; [intros Hd; congruence|]. split; [auto|].
    intros t Ht. rewrite Hw in Ht. discriminate.
  - split; [destruct Ht as [-> | ->]; rewrite Hw; auto|].
    split; [intros Hd; congruence|]. split.
    + intros Hd. rewrite Hw in Hd. discriminate.
    + intros t' Ht'. assert (t' = t) as -> by congruence. auto.
Qed.

Lemma winner_matches_board_witness :
  let g := {| ID := "g-7"; Board := "XXXOOXXOO"; Turn := "X"; Winner := "X" |} in
  has_line (Board g) "X" ∧ ∀ a, has_line (Board g) a → a = "X"%char.
Proof.
  intros g.
  destruct (winner_matches_board sprint_basic
              (run sprint_basic ∅ last_cell_win) "g-7" g)
    as (_ & _ & _ & Hmark).
  - apply reachable_run. repeat constructor; cbn; lia.
  - vm_compute. reflexivity.
  - destruct (Hmark "X"%char) as (_ & _ & Hl & Honly); [reflexivity|].
    split; assumption.
Defined.

(** X3.  In every table the server can reach, a game won by X has one X
    more than O, a game won by O has as many X as O, a drawn game has five
    X and four O, and a game in progress has at most eight marks. *)
Theorem marks_at_the_end (Sprint : value → string)
    (games : gmap string Game) (gid : string) (g : Game) :
  reachable Sprint games → games !! gid = Some g →
  (Winner g = "X" → count "X" (Board g) = S (count "O" (Board g))) ∧
  (Winner g = "O" → count "X" (Board g) = count "O" (Board g)) ∧
  (Winner g = "draw" →
   count "X" (Board g) = 5%nat ∧ count "O" (Board g) = 4%nat) ∧
  (Winner g = "" → (count "X" (Board g) + count "O" (Board g) <= 8)%nat).
Proof.
  intros Hreach Hg.
  destruct (reachable_inv2 Sprint games Hreach) as [Hinv Hinv2].
  destruct (Hinv gid g Hg) as (_ & [Hbwf _] & Hcnt & _).
  destruct (Hinv2 gid g Hg) as (Hres & [HX HO] & _).
  pose proof (board_counts _ Hbwf) as Htot.
  split; [exact HX|]. split; [exact HO|]. split.
  - intros Hd.
    destruct Hres as [(Hw & _)|[(_ & _ & Hf)|(t & _ & Hw & _)]];
      [congruence | | rewrite Hw in Hd; discriminate].
    assert (count "-" (Board g) = 0%nat) as H0
      by (apply count_absent; exact Hf).
    lia.
  - intros Hw.
    destruct Hres as [(_ & _ & Hnf)|[(Hd & _)|(t & _ & Hw' & _)]];
      [| congruence | congruence].
    assert (1 <= count "-" (Board g))%nat as H1.
    { apply count_present. unfold board_full in Hnf.
      destruct (decide ("-"%char ∈ bytes (Board g))); tauto. }
    lia.
Qed.

Lemma marks_at_the_end_witness :
  count "X" "XOXXOOOXX" = 5%nat ∧ count "O" "XOXXOOOXX" = 4%nat.
Proof.
  destruct (marks_at_the_end sprint_basic (run sprint_basic ∅ drawn_game) "g-7"
              {| ID := "g-7"; Board := "XOXXOOOXX"; Turn := "X";
                 Winner := "draw" |})
    as (_ & _ & Hdraw & _).
  - apply reachable_run. repeat constructor; cbn; lia.
  - vm_compute. reflexivity.
  - apply Hdraw. reflexivity.
Defined.

(** X4.  On a table the server can reach, the game that [getGameRPC]
    returns is the record of the requested identifier: its id is the text
    of the game_id of the payload, its board has nine cells over '-', 'X',
    'O', and its turn is X or O. *)
Theorem getGame_returns_requested (Sprint : value → string)
    (games : gmap string Game) (inp : gmap string value) (gidRaw : value)
    (resp : GetResp) :
  reachable Sprint games → inp !! "game_id" = Some gidRaw →
  snd (getGameRPC Sprint games (Some inp)) = Ok resp →
  games !! Sprint gidRaw = Some (gr_game resp) ∧
  ID (gr_game resp) = Sprint gidRaw ∧
  length (bytes (Board (gr_game resp))) = 9%nat ∧
  Forall cell_ok (bytes (Board (gr_game resp))) ∧
  (Turn (gr_game resp) = "X" ∨ Turn (gr_game resp) = "O").
Proof.
  intros Hreach Hgid. unfold getGameRPC. rewrite Hgid.
  destruct (games !! Sprint gidRaw) as [game|] eqn:Hgame; [|discriminate].
  intros [= <-]. cbn [gr_game].
  destruct (reachable_inv Sprint games Hreach _ _ Hgame)
    as (Hid & [[Hlen Hall] Hturn] & _).
  auto.
Qed.

Lemma getGame_returns_requested_witness :
  let games := run sprint_basic ∅ [CreateGame 7; mv "g-7" 4] in
  let g := {| ID := "g-7"; Board := "----X----"; Turn := "O"; Winner := "" |} in
  games !! "g-7" = Some g ∧ ID g = "g-7".
Proof.
  intros games g.
  destruct (getGame_returns_requested sprint_basic games
              (<["game_id" := VString "g-7"]> ∅) (VString "g-7")
              {| gr_ok := true; gr_game := g |})
    as (Hl & Hid & _).
  - apply reachable_run. repeat constructor; cbn; lia.
  - vm_compute. reflexivity.
  - vm_compute. reflexivity.
  - split; [exact Hl | exact Hid].
Defined.

(** ** The errors of a move *)

Lemma applyMove_snd_not_err games gid game cell msg :
  snd (applyMove games gid game cell) ≠ Err msg.
Proof.
  intros H. apply (applyMove_not_err games gid game cell
                     (fst (applyMove games gid game cell)) msg).
  rewrite <- H. apply surjective_pairing.
Qed.

Ltac split_ex :=
  repeat match goal with
         | H : ∃ _, _ |- _ => destruct H
         | H : _ ∧ _ |- _ => destruct H
         end.

(** One branch of [makeMoveRPC] that ends in a fixed outcome. *)
Ltac table_leaf :=
  cbn [snd orb]; repeat split;
  try (intros msg [= <-]; set_solver);
  try (intros [=]);
  try by (intros; split_ex; simplify_eq; try lia).

(** X5.  The error of [makeMoveRPC] is that of the first check that
    fails, in the order: payload decodes, game_id present, cell present,
    cell of a convertible type, index within 0..8, game found, game not
    finished, cell empty.  Each of the eight messages is returned under
    exactly the conditions listed, and no other message exists. *)
Theorem makeMove_error_table (Sprint : value → string)
    (games : gmap string Game) (p : option (gmap string value)) :
  let o := snd (makeMoveRPC Sprint games p) in
  (o = Err "invalid payload JSON" ↔ p = None) ∧
  (o = Err "missing game_id" ↔
     ∃ inp, p = Some inp ∧ inp !! "game_id" = None) ∧
  (o = Err "missing cell" ↔
     ∃ inp gidRaw, p = Some inp ∧ inp !! "game_id" = Some gidRaw ∧
       inp !! "cell" = None) ∧
  (o = Err "invalid cell index" ↔
     ∃ inp gidRaw cellF, p = Some inp ∧ inp !! "game_id" = Some gidRaw ∧
       inp !! "cell" = Some cellF ∧ cell_of cellF = None) ∧
  (o = Err "cell index out of range" ↔
     ∃ inp gidRaw cellF cell, p = Some inp ∧ inp !! "game_id" = Some gidRaw ∧
       inp !! "cell" = Some cellF ∧ cell_of cellF = Some cell ∧
       (cell < 0 ∨ 8 < cell)) ∧
  (o = Err "game not found" ↔
     ∃ inp gidRaw cellF cell, p = Some inp ∧ inp !! "game_id" = Some gidRaw ∧
       inp !! "cell" = Some cellF ∧ cell_of cellF = Some cell ∧
       0 <= cell <= 8 ∧ games !! Sprint gidRaw = None) ∧
  (o = Err "game already finished" ↔
     ∃ inp gidRaw cellF cell g, p = Some inp ∧
       inp !! "game_id" = Some gidRaw ∧
       inp !! "cell" = Some cellF ∧ cell_of cellF = Some cell ∧
       0 <= cell <= 8 ∧ games !! Sprint gidRaw = Some g ∧ Winner g ≠ "") ∧
  (o = Err "cell already occupied" ↔
     ∃ inp gidRaw cellF cell g c, p = Some inp ∧
       inp !! "game_id" = Some gidRaw ∧
       inp !! "cell" = Some cellF ∧ cell_of cellF = Some cell ∧
       0 <= cell <= 8 ∧ games !! Sprint gidRaw = Some g ∧ Winner g = "" ∧
       index (Board g) cell = Some c ∧ c ≠ "-"%char) ∧
  (∀ msg, o = Err msg →
     msg ∈ ["invalid payload JSON"; "missing game_id"; "missing cell";
            "invalid cell index"; "cell index out of range";
            "game not found"; "game already finished";
            "cell already occupied"]).
Proof.
  cbv zeta. unfold makeMoveRPC.
  destruct p as [inp|]; [|table_leaf].
  destruct (inp !! "game_id") as [gidRaw|] eqn:Hgid; [|table_leaf; eauto].
  destruct (inp !! "cell") as [cellF|] eqn:Hcellf; [|table_leaf; eauto].
  destruct (cell_of cellF) as [cell|] eqn:Hcellof.
  2:{ table_leaf. exists inp, gidRaw, cellF. auto. }
  destruct (Z.ltb_spec cell 0) as [Hlo|Hlo].
  { table_leaf. exists inp, gidRaw, cellF, cell. auto 6. }
  destruct (Z.ltb_spec 8 cell) as [Hhi|Hhi].
  { table_leaf. exists inp, gidRaw, cellF, cell. auto 6. }
  destruct (games !! Sprint gidRaw) as [game|] eqn:Hgame.
  2:{ table_leaf. exists inp, gidRaw, cellF, cell. repeat split; auto. }
  case_bool_decide as Hw.
  { table_leaf. exists inp, gidRaw, cellF, cell, game. repeat split; auto. }
  assert (Winner game = "") as Hw'
    by (destruct (decide (Winner game = "")); tauto).
  destruct (index (Board game) cell) as [c|] eqn:Hc; [|table_leaf].
  case_bool_decide as Hocc.
  { table_leaf. exists inp, gidRaw, cellF, cell, game, c.
    repeat split; auto. }
  assert (c = "-"%char) as -> by (destruct (decide (c = "-"%char)); tauto).
  repeat split;
    try (intros H; exfalso; exact (applyMove_snd_not_err _ _ _ _ _ H));
    try by (intros; split_ex; simplify_eq; try lia).
  intros msg H. exfalso. exact (applyMove_snd_not_err _ _ _ _ _ H).
Qed.

(** ** What a move can touch *)

Lemma applyMove_shape games gid game cell :
  fst (applyMove games gid game cell) = games ∧
    (∀ resp, snd (applyMove games gid game cell) ≠ Ok resp) ∨
  ∃ g', ID g' = ID game ∧
        fst (applyMove games gid game cell) = <[gid := g']> games ∧
        (∀ resp, snd (applyMove games gid game cell) = Ok resp →
                 resp = moveResp g').
Proof.
  unfold applyMove.
  destruct (index (Turn game) 0) as [t|]; [|left; split; [reflexivity | discriminate]].
  destruct (_ <=? cell); [left; split; [reflexivity | discriminate]|].
  destruct (checkWinner _) as [winner|].
  - right. eexists. split; [|split; [reflexivity|]].
    + repeat case_bool_decide; try destruct (negb _); reflexivity.
    + intros resp [= <-]. reflexivity.
  - right. eexists. split; [|split; [reflexivity|]]; [reflexivity|].
    discriminate.
Qed.

(** On any table: a call leaves the table alone and does not succeed, or
    it rewrites the record of a game in progress under the key that the
    payload names, keeping the id field. *)
Lemma makeMoveRPC_shape Sprint games p :
  fst (makeMoveRPC Sprint games p) = games ∧
    (∀ resp, snd (makeMoveRPC Sprint games p) ≠ Ok resp) ∨
  ∃ inp gidRaw g g',
    p = Some inp ∧ inp !! "game_id" = Some gidRaw ∧
    games !! Sprint gidRaw = Some g ∧ Winner g = "" ∧ ID g' = ID g ∧
    fst (makeMoveRPC Sprint games p) = <[Sprint gidRaw := g']> games ∧
    (∀ resp, snd (makeMoveRPC Sprint games p) = Ok resp →
             resp = moveResp g').
Proof.
  unfold makeMoveRPC.
  destruct p as [inp|]; [|left; split; [reflexivity | discriminate]].
  destruct (inp !! "game_id") as [gidRaw|] eqn:Hgid;
    [|left; split; [reflexivity | discriminate]].
  destruct (inp !! "cell") as [cellF|];
    [|left; split; [reflexivity | discriminate]].
  destruct (cell_of cellF) as [cell|];
    [|left; split; [reflexivity | discriminate]].
  destruct ((cell <? 0) || (8 <? cell));
    [left; split; [reflexivity | discriminate]|].
  destruct (games !! Sprint gidRaw) as [game|] eqn:Hgame;
    [|left; split; [reflexivity | discriminate]].
  case_bool_decide as Hw; [left; split; [reflexivity | discriminate]|].
  assert (Winner game = "") as Hw'
    by (destruct (decide (Winner game = "")); tauto).
  destruct (index (Board game) cell) as [c|];
    [|left; split; [reflexivity | discriminate]].
  case_bool_decide as Hocc; [left; split; [reflexivity | discriminate]|].
  destruct (applyMove_shape games (Sprint gidRaw) game cell)
    as [Hsame|(g' & Hid & Hfst & Hsnd)]; [now left|].
  right. exists inp, gidRaw, game, g'. auto 10.
Qed.

(** X6.  Whatever the table holds, [makeMoveRPC] neither adds nor removes
    an identifier, and the only record it can change is the one under the
    text of the payload's game_id: the records of all other identifiers
    stay as they are. *)
Theorem makeMove_touches_one_record (Sprint : value → string)
    (games : gmap string Game) (p : option (gmap string value)) :
  dom (fst (makeMoveRPC Sprint games p)) = dom games ∧
  ∀ gid, target Sprint p ≠ Some gid →
         fst (makeMoveRPC Sprint games p) !! gid = games !! gid.
Proof.
  destruct (makeMoveRPC_shape Sprint games p)
    as [[-> _]|(inp & gidRaw & g & g' & -> & Hgid & Hg & _ & _ & -> & _)].
  - split; [reflexivity|]. intros; reflexivity.
  - split.
    + rewrite dom_insert_L. pose proof (elem_of_dom_2 _ _ _ Hg) as Hin.
      apply set_eq. intros x. rewrite elem_of_union, elem_of_singleton.
      split; [intros [->|?]; assumption | auto].
    + intros gid Hne. cbn [target] in Hne. rewrite Hgid in Hne. cbn in Hne.
      apply lookup_insert_ne. congruence.
Qed.

(** X7.  Whatever the table holds, a finished game is never changed
    again by calls that are not [createGameRPC]: along every sequence of
    [makeMoveRPC] and [getGameRPC] calls its record stays identical. *)
Theorem finished_game_is_final (Sprint : value → string)
    (cs : list call) (games : gmap string Game) (gid : string) (g : Game) :
  Forall not_create cs →
  games !! gid = Some g → Winner g ≠ "" →
  run Sprint games cs !! gid = Some g.
Proof.
  revert games. induction cs as [|c cs IH]; intros games Hcs Hg Hw;
    [exact Hg|].
  apply Forall_cons in Hcs as [Hc Hcs]. cbn. apply IH; [exact Hcs| |exact Hw].
  destruct c as [r|p|p]; cbn [step]; [destruct Hc| |].
  - destruct (makeMoveRPC_shape Sprint games p)
      as [[-> _]|(inp & gidRaw & g0 & g' & _ & _ & Hg0 & Hw0 & _ & -> & _)];
      [exact Hg|].
    rewrite lookup_insert_ne; [exact Hg|]. intros <-. congruence.
  - now rewrite getGameRPC_same.
Qed.

Lemma finished_game_is_final_witness :
  let games := run sprint_basic ∅ last_cell_win in
  run sprint_basic games
    [mv "g-7" 4; GetGame (Some (<["game_id" := VString "g-7"]> ∅)); mv "g-7" 9]
    !! "g-7"
  = Some {| ID := "g-7"; Board := "XXXOOXXOO"; Turn := "X"; Winner := "X" |}.
Proof.
  intros games.
  apply (finished_game_is_final sprint_basic).
  - repeat constructor.
  - vm_compute. reflexivity.
  - discriminate.
Defined.

(** X8.  Whatever the table holds, when [makeMoveRPC] succeeds the game
    in its response is the record now stored under the requested
    identifier, the board, turn and winner of the response are those of
    that game, and a following [getGameRPC] for the same game_id returns
    that same game. *)
Theorem makeMove_response_is_stored (Sprint : value → string)
    (games games' : gmap string Game) (inp inp' : gmap string value)
    (gidRaw : value) (resp : MoveResp) :
  inp !! "game_id" = Some gidRaw → inp' !! "game_id" = Some gidRaw →
  makeMoveRPC Sprint games (Some inp) = (games', Ok resp) →
  games' !! Sprint gidRaw = Some (mr_game resp) ∧
  mr_ok resp = true ∧
  mr_board resp = Board (mr_game resp) ∧
  mr_turn resp = Turn (mr_game resp) ∧
  mr_winner resp = Winner (mr_game resp) ∧
  getGameRPC Sprint games' (Some inp')
    = (games', Ok {| gr_ok := true; gr_game := mr_game resp |}).
Proof.
  intros Hgid Hgid' Hcall.
  destruct (makeMoveRPC_shape Sprint games (Some inp))
    as [[_ Hno]|(inp0 & gidRaw0 & g & g' & [= <-] & Hgid0 & _ & _ & _ & Hfst & Hsnd)].
  { exfalso. apply (Hno resp). now rewrite Hcall. }
  assert (gidRaw0 = gidRaw) as -> by congruence.
  rewrite Hcall in Hfst, Hsnd. cbn [fst snd] in Hfst, Hsnd.
  rewrite (Hsnd resp eq_refl). cbn [moveResp mr_game mr_ok mr_board mr_turn mr_winner].
  assert (games' !! Sprint gidRaw = Some g') as Hl
    by (rewrite Hfst; apply lookup_insert_eq).
  split; [exact Hl|]. repeat (split; [reflexivity|]).
  unfold getGameRPC. now rewrite Hgid', Hl.
Qed.

Lemma makeMove_response_is_stored_witness :
  let games := run sprint_basic ∅ [CreateGame 7] in
  let g' := {| ID := "g-7"; Board := "----X----"; Turn := "O"; Winner := "" |} in
  getGameRPC sprint_basic (<["g-7" := g']> games)
             (Some (<["game_id" := VString "g-7"]> ∅))
  = (<["g-7" := g']> games, Ok {| gr_ok := true; gr_game := g' |}).
Proof.
  intros games g'.
  apply (makeMove_response_is_stored sprint_basic games (<["g-7" := g']> games)
           (<["game_id" := VString "g-7"]> (<["cell" := num 4]> ∅))
           (<["game_id" := VString "g-7"]> ∅) (VString "g-7") (moveResp g')).
  - vm_compute. reflexivity.
  - vm_compute. reflexivity.
  - reflexivity.
Defined.

Lemma makeMove_touches_one_record_witness :
  let games := run sprint_basic ∅ [CreateGame 7; CreateGame 8] in
  fst (makeMoveRPC sprint_basic games (move_payload (VString "g-7") (num 4)))
    !! "g-8" = games !! "g-8".
Proof.
  intros games.
  destruct (makeMove_touches_one_record sprint_basic games
              (move_payload (VString "g-7") (num 4))) as [_ Hother].
  apply Hother. vm_compute. discriminate.
Defined.

(** ** Moves on the tables the server can reach *)

Section Reachable.

Variable Sprint : value → string.

(** [makeMoveRPC_cases] with the payload fields that lead to the move. *)
Lemma makeMoveRPC_cases_payload games p :
  (∀ gid g, games !! gid = Some g → game_wf g) →
  (∃ msg, makeMoveRPC Sprint games p = (games, Err msg)) ∨
  (∃ inp gidRaw cellF cell g g',
      p = Some inp ∧ inp !! "game_id" = Some gidRaw ∧
      inp !! "cell" = Some cellF ∧ cell_of cellF = Some cell ∧
      games !! Sprint gidRaw = Some g ∧ Winner g = "" ∧ 0 <= cell <= 8 ∧
      index (Board g) cell = Some "-"%char ∧
      makeMoveRPC Sprint games p
        = (<[Sprint gidRaw := g']> games, Ok (moveResp g')) ∧
      moved g cell g').
Proof.
  intros Hwf. unfold makeMoveRPC.
  destruct p as [inp|]; [|left; eauto].
  destruct (inp !! "game_id") as [gidRaw|] eqn:Hgid; [|left; eauto].
  destruct (inp !! "cell") as [cellF|] eqn:Hcellf; [|left; eauto].
  destruct (cell_of cellF) as [cell|] eqn:Hcellof; [|left; eauto].
  destruct ((cell <? 0) || (8 <? cell)) eqn:Hrange; [left; eauto|].
  apply orb_false_iff in Hrange as [H0 H8].
  apply Z.ltb_ge in H0, H8.
  destruct (games !! Sprint gidRaw) as [game|] eqn:Hgame; [|left; eauto].
  case_bool_decide as Hw; [left; eauto|].
  assert (Winner game = "") as Hw'
    by (destruct (decide (Winner game = "")); tauto).
  pose proof (Hwf _ _ Hgame) as Hg.
  destruct (index_in_range (Board game) cell) as [c Hc].
  { unfold len. destruct Hg as [[-> _] _]. lia. }
  rewrite Hc. case_bool_decide as Hocc; [left; eauto|].
  assert (c = "-"%char) as -> by (destruct (decide (c = "-"%char)); tauto).
  destruct (applyMove_moved games (Sprint gidRaw) game cell Hg)
    as (g' & Happ & Hm); [lia|].
  right. exists inp, gidRaw, cellF, cell, game, g'.
  repeat split; auto; lia.
Qed.

(** What a successful call says about the table it was made on. *)
Lemma makeMoveRPC_ok_inv games inp gidRaw cellF cell games1 resp :
  (∀ gid g, games !! gid = Some g → game_wf g) →
  inp !! "game_id" = Some gidRaw → inp !! "cell" = Some cellF →
  cell_of cellF = Some cell →
  makeMoveRPC Sprint games (Some inp) = (games1, Ok resp) →
  ∃ g g', games !! Sprint gidRaw = Some g ∧ Winner g = "" ∧
          0 <= cell <= 8 ∧ index (Board g) cell = Some "-"%char ∧
          games1 = <[Sprint gidRaw := g']> games ∧ resp = moveResp g' ∧
          moved g cell g'.
Proof.
  intros Hwf Hgid Hcellf Hcellof Hcall.
  destruct (makeMoveRPC_cases_payload games (Some inp) Hwf)
    as [[msg Herr]|(inp0 & gidRaw0 & cellF0 & cell0 & g & g' & [= <-] & Hgid0
                    & Hcellf0 & Hcellof0 & Hg & Hw & Hc & He & Hok & Hm)].
  - rewrite Hcall in Herr. discriminate.
  - assert (gidRaw0 = gidRaw) as -> by congruence.
    assert (cellF0 = cellF) as -> by congruence.
    assert (cell0 = cell) as -> by congruence.
    rewrite Hcall in Hok. injection Hok as -> ->. eauto 10.
Qed.

(** A move on an empty cell of a game in progress succeeds. *)
Lemma makeMoveRPC_success games inp gidRaw cellF cell game :
  inp !! "game_id" = Some gidRaw → inp !! "cell" = Some cellF →
  cell_of cellF = Some cell → 0 <= cell <= 8 →
  games !! Sprint gidRaw = Some game → game_wf game → Winner game = "" →
  index (Board game) cell = Some "-"%char →
  ∃ game', makeMoveRPC Sprint games (Some inp)
             = (<[Sprint gidRaw := game']> games, Ok (moveResp game')) ∧
           moved game cell game'.
Proof.
  intros Hgid Hcellf Hcellof Hrange Hgame Hwf Hw Hempty.
  destruct (applyMove_moved games (Sprint gidRaw) game cell Hwf Hrange)
    as (game' & Happ & Hm).
  exists game'. split; [|exact Hm]. unfold makeMoveRPC.
  rewrite Hgid, Hcellf, Hcellof, Hgame, Hempty.
  destruct (Z.ltb_spec cell 0); [lia|].
  destruct (Z.ltb_spec 8 cell); [lia|]. cbn [orb].
  rewrite bool_decide_eq_false_2 by (intros H'; now apply H').
  rewrite bool_decide_eq_false_2 by (intros H'; now apply H').
  exact Happ.
Qed.

End Reachable.

(** X9.  On a table the server can reach no handler panics: the index
    expressions [game.Board[cell]], [game.Turn[0]], [boardRunes[cell]] and
    those of [checkWinner] are always in range, whatever the payload. *)
Theorem handlers_never_panic (Sprint : value → string)
    (games : gmap string Game) (p : option (gmap string value)) (r : Z) :
  reachable Sprint games →
  snd (makeMoveRPC Sprint games p) ≠ Panic ∧
  snd (getGameRPC Sprint games p) ≠ Panic ∧
  snd (createGameRPC r games) ≠ Panic.
Proof.
  intros Hreach. split; [now apply makeMoveRPC_no_panic|]. split.
  - unfold getGameRPC. destruct p as [inp|]; [|discriminate].
    destruct (inp !! "game_id"); [|discriminate].
    destruct (games !! _); discriminate.
  - discriminate.
Qed.

Lemma handlers_never_panic_witness :
  snd (makeMoveRPC sprint_basic (run sprint_basic ∅ drawn_game)
         (move_payload (VString "g-7") (num 8))) ≠ Panic.
Proof.
  apply (handlers_never_panic sprint_basic (run sprint_basic ∅ drawn_game)
           (move_payload (VString "g-7") (num 8)) 0).
  apply reachable_run. repeat constructor; cbn; lia.
Defined.

(** X10.  On a table the server can reach, a game in progress is never
    stuck: it has an empty cell with index in 0..8, and every call of
    [makeMoveRPC] that names the game and that cell succeeds. *)
Theorem game_in_progress_accepts_a_move (Sprint : value → string)
    (games : gmap string Game) (gid : string) (g : Game) :
  reachable Sprint games → games !! gid = Some g → Winner g = "" →
  ∃ cell, 0 <= cell <= 8 ∧ index (Board g) cell = Some "-"%char ∧
    ∀ inp gidRaw cellF,
      inp !! "game_id" = Some gidRaw → Sprint gidRaw = gid →
      inp !! "cell" = Some cellF → cell_of cellF = Some cell →
      ∃ resp, snd (makeMoveRPC Sprint games (Some inp)) = Ok resp.
Proof.
  intros Hreach Hg Hw.
  destruct (reachable_inv2 Sprint games Hreach) as [Hinv Hinv2].
  destruct (Hinv2 gid g Hg) as (Hres & _ & _).
  pose proof (store_inv_wf games Hinv gid g Hg) as Hwf.
  assert ("-"%char ∈ bytes (Board g)) as Hin.
  { destruct Hres as [(_ & _ & Hnf)|[(Hd & _)|(t & _ & Hw' & _)]];
      [| congruence | congruence].
    unfold board_full in Hnf.
    destruct (decide ("-"%char ∈ bytes (Board g))); tauto. }
  apply list_elem_of_lookup_1 in Hin as [i Hi].
  pose proof (lookup_lt_Some _ _ _ Hi) as Hlt.
  destruct Hwf as [[Hlen Hall] Hturn]. rewrite Hlen in Hlt.
  exists (Z.of_nat i). split; [lia|].
  assert (index (Board g) (Z.of_nat i) = Some "-"%char) as Hidx
    by (rewrite index_lookup by lia; now rewrite Nat2Z.id).
  split; [exact Hidx|].
  intros inp gidRaw cellF Hgid <- Hcellf Hcellof.
  destruct (makeMoveRPC_success Sprint games inp gidRaw cellF (Z.of_nat i) g)
    as (g' & -> & _); auto; [lia | now split | eauto].
Qed.

Lemma game_in_progress_accepts_a_move_witness :
  let games := run sprint_basic ∅ (removelast drawn_game) in
  ∃ cell, 0 <= cell <= 8 ∧ index "XOXXOOOX-" cell = Some "-"%char.
Proof.
  intros games.
  destruct (game_in_progress_accepts_a_move sprint_basic games "g-7"
              {| ID := "g-7"; Board := "XOXXOOOX-"; Turn := "X"; Winner := "" |})
    as (cell & Hc & Hi & _).
  - apply reachable_run. repeat constructor; cbn; lia.
  - vm_compute. reflexivity.
  - reflexivity.
  - exists cell. split; assumption.
Defined.

(** X11.  On a table the server can reach, once a move on a cell of a
    game has succeeded, every later [makeMoveRPC] on the same game and
    cell, whatever calls of [makeMoveRPC] come in between, fails with
    "cell already occupied" or "game already finished" and leaves the
    table as it is. *)
Theorem cell_is_taken_once (Sprint : value → string)
    (games games1 : gmap string Game) (inp inp' : gmap string value)
    (gidRaw gidRaw' cellF cellF' : value) (cell : Z) (resp : MoveResp)
    (ps : list (option (gmap string value))) :
  reachable Sprint games →
  inp !! "game_id" = Some gidRaw → inp !! "cell" = Some cellF →
  cell_of cellF = Some cell →
  makeMoveRPC Sprint games (Some inp) = (games1, Ok resp) →
  inp' !! "game_id" = Some gidRaw' → Sprint gidRaw' = Sprint gidRaw →
  inp' !! "cell" = Some cellF' → cell_of cellF' = Some cell →
  let games2 := run Sprint games1 (MakeMove <$> ps) in
  ∃ msg, makeMoveRPC Sprint games2 (Some inp') = (games2, Err msg) ∧
         (msg = "cell already occupied" ∨ msg = "game already finished").
Proof.
  intros Hreach Hgid Hcellf Hcellof Hcall Hgid' Hsame Hcellf' Hcellof' games2.
  pose proof (reachable_inv Sprint games Hreach) as Hinv.
  destruct (makeMoveRPC_ok_inv Sprint games inp gidRaw cellF cell games1 resp
              (store_inv_wf games Hinv) Hgid Hcellf Hcellof Hcall)
    as (g & g' & Hg & Hw & Hc & He & Hgames1 & _ & Hm).
  assert (store_inv games1) as Hinv1.
  { pose proof (makeMoveRPC_inv Sprint games (Some inp) Hinv) as H.
    now rewrite Hcall in H. }
  assert (games1 !! Sprint gidRaw = Some g') as Hg'
    by (rewrite Hgames1; apply lookup_insert_eq).
  destruct (run_moves_cells_kept Sprint ps games1 (Sprint gidRaw) g' Hinv1 Hg')
    as (g2 & Hg2 & Hwf2 & [Hlen2 Hkept]).
  fold games2 in Hg2.
  destruct Hm as (t & Ht & _ & Hb & _).
  assert (t = "X"%char ∨ t = "O"%char) as Hmark.
  { destruct (store_inv_wf games Hinv _ _ Hg) as [_ [H|H]];
      rewrite H in Ht; injection Ht; auto. }
  rewrite index_lookup in He by lia.
  pose proof (lookup_lt_Some _ _ _ He) as Hlt.
  assert (bytes (Board g') !! Z.to_nat cell = Some t) as Ht'
    by (rewrite Hb; now apply list_lookup_insert_eq).
  destruct (lookup_lt_is_Some_2 (bytes (Board g2)) (Z.to_nat cell)) as [c2 Hc2].
  { rewrite Hlen2, Hb, length_insert. exact Hlt. }
  assert (c2 = t) as ->.
  { destruct (Hkept _ _ _ Ht' Hc2) as [->|[-> _]]; [reflexivity|].
    destruct Hmark; discriminate. }
  unfold makeMoveRPC. rewrite Hgid', Hcellf', Hcellof', Hsame, Hg2.
  destruct (Z.ltb_spec cell 0); [lia|].
  destruct (Z.ltb_spec 8 cell); [lia|]. cbn [orb].
  case_bool_decide; [eauto|].
  rewrite index_lookup by lia. rewrite Hc2.
  rewrite bool_decide_eq_true_2 by (destruct Hmark as [-> | ->]; discriminate).
  eauto.
Qed.

Lemma cell_is_taken_once_witness :
  let games1 := run sprint_basic ∅ [CreateGame 7; mv "g-7" 4] in
  let games2 := run sprint_basic games1 [mv "g-7" 0; mv "g-7" 8] in
  ∃ msg,
    makeMoveRPC sprint_basic games2 (move_payload (VString "g-7") (VString "4"))
      = (games2, Err msg) ∧
    (msg = "cell already occupied" ∨ msg = "game already finished").
Proof.
  intros games1 games2.
  apply (cell_is_taken_once sprint_basic
           (run sprint_basic ∅ [CreateGame 7]) games1
           (<["game_id" := VString "g-7"]> (<["cell" := num 4]> ∅))
           (<["game_id" := VString "g-7"]> (<["cell" := VString "4"]> ∅))
           (VString "g-7") (VString "g-7") (num 4) (VString "4") 4
           (moveResp {| ID := "g-7"; Board := "----X----"; Turn := "O";
                        Winner := "" |})
           [move_payload (VString "g-7") (num 0);
            move_payload (VString "g-7") (num 8)]).
  - apply reachable_run. repeat constructor; cbn; lia.
  - vm_compute. reflexivity.
  - vm_compute. reflexivity.
  - reflexivity.
  - vm_compute. reflexivity.
  - vm_compute. reflexivity.
  - reflexivity.
  - vm_compute. reflexivity.
  - reflexivity.
Defined.

Lemma moved_empty_count g cell g' :
  game_wf g → 0 <= cell → index (Board g) cell = Some "-"%char →
  moved g cell g' → S (count "-" (Board g')) = count "-" (Board g).
Proof.
  intros Hwf Hcell Hempty (t & Ht & _ & Hb & _).
  rewrite index_lookup in Hempty by assumption.
  assert (t ≠ "-"%char) as Htd.
  { destruct Hwf as [_ [H|H]]; rewrite H in Ht; injection Ht as <-;
      discriminate. }
  unfold count. rewrite Hb. now apply count_insert_empty.
Qed.

Lemma accepted_bound Sprint ps :
  ∀ games gid g, store_inv games → games !! gid = Some g →
  (accepted Sprint games ps gid <= count "-" (Board g))%nat.
Proof.
  induction ps as [|p ps IH]; intros games gid g Hinv Hg; [cbn; lia|].
  cbn [accepted].
  pose proof (makeMoveRPC_inv Sprint games p Hinv) as Hinv'.
  destruct (makeMoveRPC_cases_payload Sprint games p (store_inv_wf games Hinv))
    as [[msg Herr]|(inp & gidRaw & cellF & cell & g0 & g' & -> & Hgid & _ & _
                    & Hg0 & Hw & Hc & He & Hok & Hm)].
  - rewrite Herr in *. cbn [fst] in Hinv'.
    specialize (IH games gid g Hinv' Hg). lia.
  - rewrite Hok in *. cbn [fst] in Hinv'. cbn [target]. rewrite Hgid. cbn.
    case_bool_decide as Hk.
    + injection Hk as <-. assert (g0 = g) as -> by congruence.
      pose proof (moved_empty_count g cell g'
                    (store_inv_wf games Hinv _ _ Hg) (proj1 Hc) He Hm) as Hcnt.
      assert (<[Sprint gidRaw := g']> games !! Sprint gidRaw = Some g') as Hl
        by apply lookup_insert_eq.
      specialize (IH _ _ _ Hinv' Hl). lia.
    + assert (<[Sprint gidRaw := g']> games !! gid = Some g) as Hl.
      { rewrite lookup_insert_ne; [exact Hg|]. congruence. }
      specialize (IH _ _ _ Hinv' Hl). lia.
Qed.

(** X12.  On a table the server can reach, along every sequence of
    [makeMoveRPC] calls a game accepts at most as many moves as it has
    empty cells, hence at most nine; a game the table does not hold
    accepts none. *)
Theorem at_most_nine_moves (Sprint : value → string)
    (games : gmap string Game) (ps : list (option (gmap string value)))
    (gid : string) :
  reachable Sprint games →
  (accepted Sprint games ps gid <= 9)%nat ∧
  (∀ g, games !! gid = Some g →
        (accepted Sprint games ps gid <= count "-" (Board g))%nat) ∧
  (games !! gid = None → accepted Sprint games ps gid = 0%nat).
Proof.
  intros Hreach. pose proof (reachable_inv Sprint games Hreach) as Hinv.
  assert (∀ g, games !! gid = Some g →
               (accepted Sprint games ps gid <= count "-" (Board g))%nat)
    as Hb by (intros g Hg; now apply accepted_bound).
  assert (games !! gid = None → accepted Sprint games ps gid = 0%nat) as Hz.
  { clear Hb Hreach. revert games Hinv.
    induction ps as [|p ps IH]; intros games Hinv Hnone; [reflexivity|].
    cbn [accepted].
    pose proof (makeMoveRPC_inv Sprint games p Hinv) as Hinv'.
    destruct (makeMoveRPC_cases_payload Sprint games p
                (store_inv_wf games Hinv))
      as [[msg Herr]|(inp & gidRaw & cellF & cell & g0 & g' & -> & Hgid & _
                      & _ & Hg0 & Hw & Hc & He & Hok & Hm)].
    - rewrite Herr in *. cbn [fst] in Hinv'. now rewrite IH.
    - rewrite Hok in *. cbn [fst] in Hinv'. cbn [target]. rewrite Hgid. cbn.
      rewrite bool_decide_eq_false_2 by congruence.
      rewrite IH; [reflexivity | exact Hinv' |].
      rewrite lookup_insert_ne; [exact Hnone | congruence]. }
  split; [|split; assumption].
  destruct (games !! gid) as [g|] eqn:Hg.
  - specialize (Hb g eq_refl).
    pose proof (board_counts _ (proj1 (store_inv_wf games Hinv gid g Hg))).
    lia.
  - rewrite Hz by reflexivity. lia.
Qed.

Lemma at_most_nine_moves_witness :
  (accepted sprint_basic (run sprint_basic ∅ [CreateGame 7])
     [move_payload (VString "g-7") (num 4);
      move_payload (VString "g-7") (num 4);
      move_payload (VString "g-7") (num 0)] "g-7" <= 9)%nat.
Proof.
  apply (at_most_nine_moves sprint_basic (run sprint_basic ∅ [CreateGame 7])).
  apply reachable_run. repeat constructor; cbn; lia.
Defined.

(** ** Identifiers *)

Lemma to_int_not_nil n :
  Z.to_int n ≠ Decimal.Pos Decimal.Nil ∧ Z.to_int n ≠ Decimal.Neg Decimal.Nil.
Proof.
  destruct n as [|q|q]; cbn; split; try discriminate; intros [= H];
    exact (DecimalPos.Unsigned.to_uint_nonnil q H).
Qed.

Lemma itoa_inj n m : itoa n = itoa m → n = m.
Proof.
  unfold itoa. intros H. apply DecimalZ.to_int_inj.
  destruct (to_int_not_nil n) as [Hn1 Hn2].
  destruct (to_int_not_nil m) as [Hm1 Hm2].
  pose proof (NilZero.isi _ Hn1 Hn2) as En.
  pose proof (NilZero.isi _ Hm1 Hm2) as Em.
  rewrite H in En. congruence.
Qed.

Lemma genID_inj r r' : genID r = genID r' → r = r'.
Proof.
  unfold genID. intros H. apply String.app_inj in H. now apply itoa_inj.
Qed.

(** X13.  Two draws give the same identifier only when they are the same
    number, so [createGameRPC] replaces a record only when it draws the
    number that record's identifier was made from; creating two games
    from different draws leaves both in the table. *)
Theorem create_replaces_only_same_draw (r r' : Z)
    (games : gmap string Game) (g : Game) :
  (genID r = genID r' ↔ r = r') ∧
  (r ≠ r' → games !! genID r' = Some g →
   fst (createGameRPC r games) !! genID r' = Some g) ∧
  (r ≠ r' →
   let games2 := fst (createGameRPC r (fst (createGameRPC r' games))) in
   games2 !! genID r'
     = Some {| ID := genID r'; Board := newBoard; Turn := "X"; Winner := "" |} ∧
   games2 !! genID r
     = Some {| ID := genID r; Board := newBoard; Turn := "X"; Winner := "" |}).
Proof.
  split; [split; [apply genID_inj | now intros ->]|].
  assert (r ≠ r' → genID r ≠ genID r') as Hne
    by (intros Hr H; apply Hr; now apply genID_inj).
  split.
  - intros Hr Hg. cbn [createGameRPC fst].
    now rewrite lookup_insert_ne by auto.
  - intros Hr. cbn [createGameRPC fst]. split.
    + rewrite lookup_insert_ne by auto. apply lookup_insert_eq.
    + apply lookup_insert_eq.
Qed.

Lemma create_replaces_only_same_draw_witness :
  let games := run sprint_basic ∅ [CreateGame 7; mv "g-7" 4] in
  fst (createGameRPC 8 games) !! genID 7
  = Some {| ID := "g-7"; Board := "----X----"; Turn := "O"; Winner := "" |}.
Proof.
  intros games.
  destruct (create_replaces_only_same_draw 8 7 games
              {| ID := "g-7"; Board := "----X----"; Turn := "O"; Winner := "" |})
    as (_ & Hkeep & _).
  apply Hkeep; [lia | vm_compute; reflexivity].
Defined.

(** X14.  In every table the server can reach, each identifier is "g-"
    followed by the decimal digits of a number in 0..999999, and the table
    holds at most 1000000 games. *)
Theorem reachable_identifiers (Sprint : value → string)
    (games : gmap string Game) :
  reachable Sprint games →
  (∀ gid g, games !! gid = Some g →
            ∃ r, 0 <= r < 1000000 ∧ gid = "g-" +:+ itoa r) ∧
  Z.of_nat (size games) <= 1000000.
Proof.
  intros Hreach.
  destruct (reachable_inv2 Sprint games Hreach) as [_ Hinv2].
  assert (∀ gid g, games !! gid = Some g →
                   ∃ r, 0 <= r < 1000000 ∧ gid = genID r) as Hform.
  { intros gid g Hg. now destruct (Hinv2 gid g Hg) as (_ & _ & ?). }
  split; [exact Hform|].
  set (ids := genID <$> seqZ 0 1000000).
  assert (dom games ⊆ list_to_set ids) as Hsub.
  { intros gid Hin. apply elem_of_dom in Hin as [g Hg].
    destruct (Hform gid g Hg) as (r & Hr & ->).
    apply elem_of_list_to_set, list_elem_of_fmap. exists r.
    split; [reflexivity|]. apply elem_of_seqZ. lia. }
  apply subseteq_size in Hsub.
  rewrite size_dom in Hsub.
  rewrite size_list_to_set in Hsub.
  2:{ apply NoDup_fmap_2; [intros ? ? ?; now apply genID_inj|].
      apply NoDup_seqZ. }
  unfold ids in Hsub. rewrite length_fmap, length_seqZ in Hsub. lia.
Qed.

Lemma reachable_identifiers_witness :
  Z.of_nat (size (run sprint_basic ∅ [CreateGame 7; CreateGame 8])) <= 1000000.
Proof.
  apply (reachable_identifiers sprint_basic).
  apply reachable_run. repeat constructor; cbn; lia.
Defined.

(** ** Conversion of cells, continued *)

Lemma parse_digits_cons (c : ascii) (l : list ascii) (n k : Z) :
  is_digit c = true → byte_val c - 48 = k →
  n < MaxUint64 / 10 + 1 → n * 10 + k <= MaxUint64 →
  parse_digits n (c :: l) = parse_digits (n * 10 + k) l.
Proof.
  intros Hd <- Hn Hk. cbn [parse_digits]. rewrite Hd.
  destruct (Z.leb_spec (MaxUint64 / 10 + 1) n); [lia|].
  destruct (Z.ltb_spec MaxUint64 (n * 10 + (byte_val c - 48))); [lia|].
  reflexivity.
Qed.

Lemma bytes_String c s : bytes (String c s) = c :: bytes s.
Proof. reflexivity. Qed.

Lemma MaxUint64_cutoff : MaxUint64 / 10 + 1 = 1844674407370955162.
Proof. reflexivity. Qed.

Lemma MaxUint64_value : MaxUint64 = 18446744073709551615.
Proof. reflexivity. Qed.

(** The accumulator of the Standard Library's reading of a numeral never
    shrinks. *)
Lemma of_uint_acc_ge d : ∀ acc : positive,
  Z.pos acc <= Z.pos (Pos.of_uint_acc d acc).
Proof.
  induction d; intros acc; cbn [Pos.of_uint_acc]; [lia|..];
    match goal with
    | |- _ <= Z.pos (Pos.of_uint_acc _ ?q) =>
        specialize (IHd q); lia
    end.
Qed.

(** The digits of a decimal numeral, read after a positive prefix, as
    long as the number fits a [uint64]. *)
Lemma parse_digits_acc d : ∀ acc : positive,
  Z.pos (Pos.of_uint_acc d acc) <= MaxUint64 →
  parse_digits (Z.pos acc) (bytes (NilEmpty.string_of_uint d))
  = (Z.pos (Pos.of_uint_acc d acc), ParseOk).
Proof.
  induction d; intros acc Hfit; [reflexivity|..];
    cbn [Pos.of_uint_acc] in Hfit |- *;
    match type of Hfit with
    | Z.pos (Pos.of_uint_acc _ ?q) <= _ =>
        pose proof (of_uint_acc_ge d q) as Hge;
        cbn [NilEmpty.string_of_uint]; rewrite bytes_String;
        rewrite (parse_digits_cons _ _ _ (Z.pos q - Z.pos acc * 10));
        [ replace (Z.pos acc * 10 + (Z.pos q - Z.pos acc * 10))
            with (Z.pos q) by lia;
          apply IHd; exact Hfit
        | reflexivity
        | vm_compute (byte_val _ - 48); lia
        | rewrite MaxUint64_cutoff; rewrite MaxUint64_value in Hfit; lia
        | rewrite MaxUint64_value in *; lia ]
    end.
Qed.

Lemma parse_digits_uint d :
  Z.of_N (Pos.of_uint d) <= MaxUint64 →
  parse_digits 0 (bytes (NilEmpty.string_of_uint d))
  = (Z.of_N (Pos.of_uint d), ParseOk).
Proof.
  induction d; intros Hfit; [reflexivity|..];
    cbn [Pos.of_uint] in Hfit |- *;
    cbn [NilEmpty.string_of_uint]; rewrite bytes_String.
  - rewrite (parse_digits_cons _ _ _ 0);
      [ now apply IHd | reflexivity | reflexivity
      | rewrite MaxUint64_cutoff; lia | rewrite MaxUint64_value; lia ].
  - rewrite (parse_digits_cons _ _ _ 1);
      [ now apply parse_digits_acc | reflexivity | reflexivity
      | rewrite MaxUint64_cutoff; lia | rewrite MaxUint64_value; lia ].
  - rewrite (parse_digits_cons _ _ _ 2);
      [ now apply parse_digits_acc | reflexivity | reflexivity
      | rewrite MaxUint64_cutoff; lia | rewrite MaxUint64_value; lia ].
  - rewrite (parse_digits_cons _ _ _ 3);
      [ now apply parse_digits_acc | reflexivity | reflexivity
      | rewrite MaxUint64_cutoff; lia | rewrite MaxUint64_value; lia ].
  - rewrite (parse_digits_cons _ _ _ 4);
      [ now apply parse_digits_acc | reflexivity | reflexivity
      | rewrite MaxUint64_cutoff; lia | rewrite MaxUint64_value; lia ].
  - rewrite (parse_digits_cons _ _ _ 5);
      [ now apply parse_digits_acc | reflexivity | reflexivity
      | rewrite MaxUint64_cutoff; lia | rewrite MaxUint64_value; lia ].
  - rewrite (parse_digits_cons _ _ _ 6);
      [ now apply parse_digits_acc | reflexivity | reflexivity
      | rewrite MaxUint64_cutoff; lia | rewrite MaxUint64_value; lia ].
  - rewrite (parse_digits_cons _ _ _ 7);
      [ now apply parse_digits_acc | reflexivity | reflexivity
      | rewrite MaxUint64_cutoff; lia | rewrite MaxUint64_value; lia ].
  - rewrite (parse_digits_cons _ _ _ 8);
      [ now apply parse_digits_acc | reflexivity | reflexivity
      | rewrite MaxUint64_cutoff; lia | rewrite MaxUint64_value; lia ].
  - rewrite (parse_digits_cons _ _ _ 9);
      [ now apply parse_digits_acc | reflexivity | reflexivity
      | rewrite MaxUint64_cutoff; lia | rewrite MaxUint64_value; lia ].
Qed.

Lemma string_of_uint_head d :
  d ≠ Decimal.Nil →
  ∃ c l, bytes (NilEmpty.string_of_uint d) = c :: l ∧ is_digit c = true.
Proof.
  destruct d; [done|..]; intros _; cbn [NilEmpty.string_of_uint];
    rewrite bytes_String; eauto.
Qed.

Lemma digit_not_sign c :
  is_digit c = true → c ≠ "-"%char ∧ c ≠ "+"%char.
Proof. intros H. split; intros ->; discriminate H. Qed.

Lemma Atoi_digits (minus : bool) (c : ascii) (l : list ascii) (n : Z) :
  is_digit c = true → parse_digits 0 (c :: l) = (n, ParseOk) →
  MinInt64 <= (if minus then - n else n) <= MaxInt64 →
  Atoi (of_bytes (if minus then "-"%char :: c :: l else c :: l))
  = (if minus then - n else n, true).
Proof.
  intros Hd Hv Hr. destruct (digit_not_sign c Hd) as [Hm Hp].
  assert (MinInt64 = - 2 ^ 63 ∧ MaxInt64 = 2 ^ 63 - 1) as [Emin Emax]
    by (split; reflexivity).
  unfold Atoi. rewrite bytes_of_bytes. destruct minus.
  - rewrite bool_decide_eq_false_2 by discriminate.
    rewrite bool_decide_eq_true_2 by reflexivity.
    cbn [ParseUint]. rewrite Hv. cbn [negb andb].
    destruct (Z.ltb_spec (2 ^ 63) n); [lia | reflexivity].
  - rewrite bool_decide_eq_false_2 by exact Hp.
    rewrite bool_decide_eq_false_2 by exact Hm.
    cbn [ParseUint]. rewrite Hv. cbn [negb andb].
    destruct (Z.leb_spec (2 ^ 63) n); [lia | reflexivity].
Qed.

(** X15.  [Atoi] reads back what [%d] prints: for every [int64] number
    [n], the decimal text of [n] parses without error to [n].  A cell sent
    as the decimal string of an index is that index. *)
Theorem Atoi_reads_decimal (n : Z) :
  MinInt64 <= n <= MaxInt64 →
  Atoi (itoa n) = (n, true) ∧ cell_of (VString (itoa n)) = Some n.
Proof.
  intros Hr.
  assert (MinInt64 = - 2 ^ 63 ∧ MaxInt64 = 2 ^ 63 - 1) as [Emin Emax]
    by (split; reflexivity).
  assert (Atoi (itoa n) = (n, true)) as H;
    [|split; [exact H | cbn [cell_of]; now rewrite H]].
  destruct n as [|q|q]; [reflexivity|..]; unfold itoa; cbn [Z.to_int].
  - pose proof (DecimalPos.Unsigned.to_uint_nonnil q) as Hnn.
    destruct (string_of_uint_head _ Hnn) as (c & l & Hb & Hd).
    pose proof (parse_digits_uint (Pos.to_uint q)) as Hv.
    rewrite DecimalPos.Unsigned.of_to, Hb in Hv. cbn [Z.of_N] in Hv.
    specialize (Hv ltac:(rewrite MaxUint64_value; lia)).
    cbn [NilZero.string_of_int].
    replace (NilZero.string_of_uint (Pos.to_uint q))
      with (of_bytes (c :: l)).
    + apply (Atoi_digits false c l (Z.pos q) Hd Hv Hr).
    + rewrite <- Hb, of_bytes_bytes. now destruct (Pos.to_uint q).
  - pose proof (DecimalPos.Unsigned.to_uint_nonnil q) as Hnn.
    destruct (string_of_uint_head _ Hnn) as (c & l & Hb & Hd).
    pose proof (parse_digits_uint (Pos.to_uint q)) as Hv.
    rewrite DecimalPos.Unsigned.of_to, Hb in Hv. cbn [Z.of_N] in Hv.
    specialize (Hv ltac:(rewrite MaxUint64_value; lia)).
    cbn [NilZero.string_of_int].
    replace (String "-" (NilZero.string_of_uint (Pos.to_uint q)))
      with (of_bytes ("-"%char :: c :: l)).
    + apply (Atoi_digits true c l (Z.pos q) Hd Hv). exact Hr.
    + cbn [of_bytes string_of_list_ascii]. f_equal.
      change (String c (string_of_list_ascii l)) with (of_bytes (c :: l)).
      rewrite <- Hb, of_bytes_bytes. now destruct (Pos.to_uint q).
Qed.

Lemma Atoi_reads_decimal_witness : Atoi (itoa 8) = (8, true).
Proof.
  destruct (Atoi_reads_decimal 8) as [H _]; [|exact H].
  unfold MinInt64, MaxInt64. lia.
Defined.

Lemma int64_bounds : MinInt64 < 0 ∧ 8 < MaxInt64.
Proof. unfold MinInt64, MaxInt64. split; reflexivity. Qed.

(** X16.  A numeric cell is taken as an index in 0..8 exactly when the
    number lies strictly between -1 and 9: fractions are cut toward zero,
    so -0.5 is index 0 and 8.5 is index 8, while -1 and 9 are refused.  A
    JSON integer [n] of magnitude at most 2^53 = 9007199254740992, which
    the decoder turns into the [float64] of that value, is the index [n]. *)
Theorem numeric_cell_index (f : spec_float) (n : Z) :
  (0 <= int_of_float64 f <= 8 ↔ float64_strictly_between (-1) 9 f) ∧
  (- 9007199254740992 <= n <= 9007199254740992 → cell_of (num n) = Some n).
Proof.
  destruct int64_bounds as [Hmin Hmax]. split.
  - unfold int_of_float64, float64_strictly_between.
    destruct f as [s|s| |s m e]; cbn [float64_trunc].
    + destruct ((MinInt64 <=? 0) && (0 <=? MaxInt64)) eqn:E; [lia|].
      apply andb_false_iff in E as [E|E];
        [apply Z.leb_gt in E | apply Z.leb_gt in E]; lia.
    + split; [lia | tauto].
    + split; [lia | tauto].
    + destruct (Z.leb_spec 0 e) as [He|He].
      * assert (0 < 2 ^ e) as Hp by (apply Z.pow_pos_nonneg; lia).
        set (t := if s then - (Z.pos m * 2 ^ e) else Z.pos m * 2 ^ e).
        assert ((if s then Z.neg m else Z.pos m) * 2 ^ e = t) as ->
          by (unfold t; destruct s; lia).
        destruct ((MinInt64 <=? t) && (t <=? MaxInt64)) eqn:E; [lia|].
        apply andb_false_iff in E as [E|E];
          [apply Z.leb_gt in E | apply Z.leb_gt in E]; lia.
      * set (D := 2 ^ (- e)).
        assert (0 < D) as Hp by (apply Z.pow_pos_nonneg; lia).
        pose proof (Z.div_mod (Z.pos m) D ltac:(lia)) as Hdm.
        pose proof (Z.mod_pos_bound (Z.pos m) D Hp) as Hmb.
        assert (0 <= Z.pos m / D) as Hq by (apply Z.div_pos; lia).
        set (q := Z.pos m / D) in *. set (rm := Z.pos m mod D) in *.
        assert (Z.pos m = D * q + rm) as Hm by exact Hdm.
        destruct s.
        -- set (t := - q).
           assert (Z.neg m = - Z.pos m) as -> by reflexivity.
           destruct ((MinInt64 <=? t) && (t <=? MaxInt64)) eqn:E.
           ++ unfold t. split; intros H; [|nia].
              assert (q = 0) by lia. nia.
           ++ apply andb_false_iff in E as [E|E];
                [apply Z.leb_gt in E | apply Z.leb_gt in E];
                unfold t in E; split; intros H; try lia; nia.
        -- destruct ((MinInt64 <=? q) && (q <=? MaxInt64)) eqn:E.
           ++ split; intros H; nia.
           ++ apply andb_false_iff in E as [E|E];
                [apply Z.leb_gt in E | apply Z.leb_gt in E];
                split; intros H; try lia; nia.
  - intros Hr.
    assert (MinInt64 = -9223372036854775808) as Hlo by reflexivity.
    assert (MaxInt64 = 9223372036854775807) as Hhi by reflexivity.
    destruct n as [|q|q]; cbn [num cell_of]; f_equal;
      try reflexivity; unfold int_of_float64; cbn [float64_trunc];
      change (0 <=? 0) with true; cbv iota; rewrite Z.pow_0_r, Z.mul_1_r.
    + destruct ((MinInt64 <=? Z.pos q) && (Z.pos q <=? MaxInt64)) eqn:E;
        [reflexivity|].
      apply andb_false_iff in E as [E|E];
        [apply Z.leb_gt in E | apply Z.leb_gt in E]; lia.
    + change (- Z.pos q) with (Z.neg q).
      destruct ((MinInt64 <=? Z.neg q) && (Z.neg q <=? MaxInt64)) eqn:E;
        [reflexivity|].
      apply andb_false_iff in E as [E|E];
        [apply Z.leb_gt in E | apply Z.leb_gt in E]; lia.
Qed.

Lemma numeric_cell_index_witness :
  - 9007199254740992 <= 8 <= 9007199254740992 ∧ cell_of (num 8) = Some 8.
Proof.
  split; [lia|].
  destruct (numeric_cell_index (S754_zero false) 8) as [_ H].
  apply H. lia.
Defined.

(** ** The board as runes *)

(** X17.  On a board of 7-bit bytes and for a 7-bit mark, the three
    statements that apply a move (to runes, assign, back to a string)
    change the byte at [cell] and nothing else: the length is kept, the
    byte at [cell] becomes the mark when [cell] is within the board, and
    every other byte is as before.  The byte index tested for '-' and the
    rune index written are then the same cell. *)
Theorem move_writes_one_byte (board : string) (t : ascii) (cell : nat) :
  Forall is_ascii (bytes board) → is_ascii t →
  let board' := of_runes (<[cell := byte_val t]> (runes board)) in
  length (bytes board') = length (bytes board) ∧
  ((cell < length (bytes board))%nat → bytes board' !! cell = Some t) ∧
  (∀ i, i ≠ cell → bytes board' !! i = bytes board !! i).
Proof.
  intros Hb Ht board'.
  assert (bytes board' = <[cell := t]> (bytes board)) as ->
    by (apply set_rune_ascii; assumption).
  split; [apply length_insert|]. split.
  - intros Hlt. now apply list_lookup_insert_eq.
  - intros i Hne. apply list_lookup_insert_ne. congruence.
Qed.

Lemma move_writes_one_byte_witness :
  bytes (of_runes (<[4%nat := byte_val "X"]> (runes "O--------")))
    !! 4%nat = Some "X"%char.
Proof.
  destruct (move_writes_one_byte "O--------" "X" 4) as (_ & H & _).
  - cbn. repeat (apply List.Forall_cons; [reflexivity|]). apply List.Forall_nil.
  - reflexivity.
  - apply H. cbn. lia.
Defined.

(** ** Loading the module *)

(** The seven parts of the statement on [InitModule], less those whose
    condition on the answers does not hold. *)
Ltac init_cases :=
  split; [|split; [|split; [|split; [|split; [|split]]]]];
  try by (intros; discriminate).

(** X18.  [InitModule] first logs that it is loading, then asks the
    host's initializer to register create_game, make_move and get_game, in
    this order and each with its handler, and stops at the first answer
    that is an error.  Its events and its result are fixed by the three
    answers: when the first error is the answer to the k-th registration,
    the events are the loading line, the first k registrations and the
    error line of the log for that RPC, nothing after it, and the result
    is that error; when the three answers are [nil], the events are the
    loading line, the three registrations and the line that reports the
    three RPCs, and the result is [nil].  So the result is [nil] exactly
    when the three answers are, the registrations made are the first k of
    the three, and an error line is logged exactly when the result is an
    error. *)
Theorem InitModule_registers_in_order
    (register : list init_event → string → handler → option string) :
  let loading := LogInfo "Loading TicTacToe Module..." in
  let r1 := RegisterRpc "create_game" HCreateGame in
  let r2 := RegisterRpc "make_move" HMakeMove in
  let r3 := RegisterRpc "get_game" HGetGame in
  let a1 := register [loading] "create_game" HCreateGame in
  let a2 := register [loading; r1] "make_move" HMakeMove in
  let a3 := register [loading; r1; r2] "get_game" HGetGame in
  let evs := fst (InitModule register) in
  let res := snd (InitModule register) in
  (∀ err, a1 = Some err →
     evs = [loading; r1; LogError "Unable to register create_game: %v" err] ∧
     res = Some err) ∧
  (∀ err, a1 = None → a2 = Some err →
     evs = [loading; r1; r2;
            LogError "Unable to register make_move: %v" err] ∧
     res = Some err) ∧
  (∀ err, a1 = None → a2 = None → a3 = Some err →
     evs = [loading; r1; r2; r3;
            LogError "Unable to register get_game: %v" err] ∧
     res = Some err) ∧
  (a1 = None → a2 = None → a3 = None →
     evs = [loading; r1; r2; r3;
            LogInfo "TicTacToe RPCs registered: create_game, make_move, get_game"] ∧
     res = None) ∧
  (res = None ↔ a1 = None ∧ a2 = None ∧ a3 = None) ∧
  (∃ k, (1 <= k <= 3)%nat ∧
        registrations evs
          = take k [("create_game", HCreateGame); ("make_move", HMakeMove);
                    ("get_game", HGetGame)] ∧
        (k = 1%nat ↔ a1 ≠ None) ∧
        (k = 2%nat ↔ a1 = None ∧ a2 ≠ None)) ∧
  (res = None ↔ ∀ format err, LogError format err ∉ evs).
Proof.
  cbv zeta. unfold InitModule, register_or_log.
  change ([LogInfo "Loading TicTacToe Module..."]
            ++ [RegisterRpc "create_game" HCreateGame])
    with [LogInfo "Loading TicTacToe Module...";
          RegisterRpc "create_game" HCreateGame].
  destruct (register [LogInfo "Loading TicTacToe Module..."]
              "create_game" HCreateGame) as [e1|] eqn:E1; cbn [fst snd app].
  { init_cases.
    - intros err [= <-]. split; reflexivity.
    - split; [intros ?; discriminate | intros [? _]; discriminate].
    - exists 1%nat. split; [lia|]. split; [reflexivity|]. split.
      + split; [intros _; discriminate | intros _; reflexivity].
      + split; [intros ?; discriminate | intros [? _]; discriminate].
    - split; [intros ?; discriminate|]. intros H. exfalso. eapply H.
      do 2 (apply elem_of_cons; right). apply elem_of_cons. left. reflexivity. }
  destruct (register [LogInfo "Loading TicTacToe Module...";
                      RegisterRpc "create_game" HCreateGame]
              "make_move" HMakeMove) as [e2|] eqn:E2; cbn [fst snd app].
  { init_cases.
    - intros err _ [= <-]. split; reflexivity.
    - split; [intros ?; discriminate | intros (_ & ? & _); discriminate].
    - exists 2%nat. split; [lia|]. split; [reflexivity|]. split.
      + split; [intros ?; discriminate | intros H; now elim H].
      + split; [intros _; split; [reflexivity | discriminate]
               | intros _; reflexivity].
    - split; [intros ?; discriminate|]. intros H. exfalso. eapply H.
      do 3 (apply elem_of_cons; right). apply elem_of_cons. left. reflexivity. }
  destruct (register [LogInfo "Loading TicTacToe Module...";
                      RegisterRpc "create_game" HCreateGame;
                      RegisterRpc "make_move" HMakeMove]
              "get_game" HGetGame) as [e3|] eqn:E3; cbn [fst snd app].
  { init_cases.
    - intros err _ _ [= <-]. split; reflexivity.
    - split; [intros ?; discriminate | intros (_ & _ & ?); discriminate].
    - exists 3%nat. split; [lia|]. split; [reflexivity|]. split.
      + split; [intros ?; discriminate | intros H; now elim H].
      + split; [intros ?; discriminate | intros [_ H]; now elim H].
    - split; [intros ?; discriminate|]. intros H. exfalso. eapply H.
      do 4 (apply elem_of_cons; right). apply elem_of_cons. left. reflexivity. }
  init_cases.
  - intros _ _ _. split; reflexivity.
  - split; [auto | intros _; reflexivity].
  - exists 3%nat. split; [lia|]. split; [reflexivity|]. split.
    + split; [intros ?; discriminate | intros H; now elim H].
    + split; [intros ?; discriminate | intros [_ H]; now elim H].
  - split; [|intros _; reflexivity]. intros _ format err Hin.
    repeat (apply elem_of_cons in Hin as [Hin|Hin]; [discriminate|]).
    inversion Hin.
Qed.

(** ** The echo *)

Lemma string_app_length (s1 s2 : string) :
  length (bytes (s1 +:+ s2)) = (length (bytes s1) + length (bytes s2))%nat.
Proof.
  induction s1 as [|c s1 IH]; [reflexivity|].
  change (String c s1 +:+ s2) with (String c (s1 +:+ s2)).
  rewrite !bytes_String. cbn [length]. now rewrite IH.
Qed.

Lemma string_app_inj_r (s1 s2 t : string) : s1 +:+ t = s2 +:+ t → s1 = s2.
Proof.
  revert s2. induction s1 as [|c s1 IH]; intros [|c' s2] H.
  - reflexivity.
  - exfalso. apply (f_equal (λ s, length (bytes s))) in H. cbv beta in H.
    rewrite !string_app_length, bytes_String in H. cbn [length] in H.
    change (length (bytes "")) with 0%nat in H. lia.
  - exfalso. apply (f_equal (λ s, length (bytes s))) in H. cbv beta in H.
    rewrite !string_app_length, bytes_String in H. cbn [length] in H.
    change (length (bytes "")) with 0%nat in H. lia.
  - change (String c (s1 +:+ t) = String c' (s2 +:+ t)) in H.
    injection H as -> H. f_equal. now apply IH.
Qed.

Lemma bytes_app (s1 s2 : string) : bytes (s1 +:+ s2) = bytes s1 ++ bytes s2.
Proof.
  induction s1 as [|c s1 IH]; [reflexivity|].
  change (String c s1 +:+ s2) with (String c (s1 +:+ s2)).
  rewrite !bytes_String. cbn [app]. now rewrite IH.
Qed.

(** X19.  [TestRpc] never fails and answers its payload inside a fixed
    wrapper: the reply is the 47 bytes of
    [{"ok": true, "msg": "RPC working!", "payload": ], given below by their
    codes (34 is the double quote, 123 and 125 are the braces), then the
    payload as it came, not escaped, then a closing brace.  The reply is
    thus 48 bytes longer than the payload, and two payloads with the same
    reply are the same. *)
Theorem TestRpc_echo (payload payload' : string) :
  (∃ reply, TestRpc payload = Ok reply ∧
     bytes reply
       = map byte_of
           [123; 34; 111; 107; 34; 58; 32; 116; 114; 117; 101; 44; 32;
            34; 109; 115; 103; 34; 58; 32;
            34; 82; 80; 67; 32; 119; 111; 114; 107; 105; 110; 103; 33; 34;
            44; 32; 34; 112; 97; 121; 108; 111; 97; 100; 34; 58; 32]
         ++ bytes payload ++ [byte_of 125] ∧
     length (bytes reply) = (length (bytes payload) + 48)%nat) ∧
  (TestRpc payload = TestRpc payload' → payload = payload').
Proof.
  split.
  - eexists. split; [reflexivity|]. split.
    + rewrite !bytes_app. reflexivity.
    + rewrite !string_app_length.
      change (length (bytes TestRpc_prefix)) with 47%nat.
      change (length (bytes "}")) with 1%nat. lia.
  - unfold TestRpc. intros [= H]. apply String.app_inj in H.
    now apply string_app_inj_r in H.
Qed.

(** ** Several calls for one cell *)

(** A call for a cell that holds a mark is refused and changes nothing. *)
Lemma taken_cell_refused Sprint games gid g cell t p :
  games !! gid = Some g → 0 <= cell <= 8 →
  index (Board g) cell = Some t → t ≠ "-"%char →
  names Sprint gid cell p →
  ∃ msg, makeMoveRPC Sprint games p = (games, Err msg).
Proof.
  intros Hg Hc Ht Htd (inp & gidRaw & cellF & -> & Hgid & <- & Hcellf & Hcellof).
  unfold makeMoveRPC. rewrite Hgid, Hcellf, Hcellof, Hg.
  destruct (Z.ltb_spec cell 0); [lia|].
  destruct (Z.ltb_spec 8 cell); [lia|]. cbn [orb].
  case_bool_decide; [eauto|]. rewrite Ht.
  rewrite bool_decide_eq_true_2 by exact Htd. eauto.
Qed.

Lemma accepted_taken_cell Sprint ps :
  ∀ games gid g cell t,
    games !! gid = Some g → 0 <= cell <= 8 →
    index (Board g) cell = Some t → t ≠ "-"%char →
    Forall (names Sprint gid cell) ps →
    accepted Sprint games ps gid = 0%nat.
Proof.
  induction ps as [|p ps IH]; intros games gid g cell t Hg Hc Ht Htd Hall;
    [reflexivity|].
  apply Forall_cons in Hall as [Hp Hall]. cbn [accepted].
  destruct (taken_cell_refused Sprint games gid g cell t p Hg Hc Ht Htd Hp)
    as [msg ->].
  cbn. now apply (IH games gid g cell t).
Qed.

(** X20.  On a table the server can reach, when one or more calls of
    [makeMoveRPC], made one after the other, all ask for the same empty
    cell of the same game in progress, exactly one of them is accepted:
    the first succeeds and every later one is refused. *)
Theorem one_call_takes_the_cell (Sprint : value → string)
    (games : gmap string Game) (gid : string) (g : Game) (cell : Z)
    (p : option (gmap string value))
    (ps : list (option (gmap string value))) :
  reachable Sprint games → games !! gid = Some g → Winner g = "" →
  0 <= cell <= 8 → index (Board g) cell = Some "-"%char →
  Forall (names Sprint gid cell) (p :: ps) →
  accepted Sprint games (p :: ps) gid = 1%nat ∧
  (∃ resp, snd (makeMoveRPC Sprint games p) = Ok resp) ∧
  accepted Sprint (fst (makeMoveRPC Sprint games p)) ps gid = 0%nat.
Proof.
  intros Hreach Hg Hw Hc He Hall.
  apply Forall_cons in Hall as [Hp Hall].
  pose proof (reachable_inv Sprint games Hreach) as Hinv.
  pose proof (store_inv_wf games Hinv gid g Hg) as Hwf.
  pose proof Hp as (inp & gidRaw & cellF & -> & Hgid & <- & Hcellf & Hcellof).
  destruct (makeMoveRPC_success Sprint games inp gidRaw cellF cell g
              Hgid Hcellf Hcellof Hc Hg Hwf Hw He)
    as (g' & Hok & t & Ht & _ & Hb & _).
  assert (t = "X"%char ∨ t = "O"%char) as Hmark
    by (destruct Hwf as [_ [H|H]]; rewrite H in Ht; injection Ht; auto).
  assert (accepted Sprint (<[Sprint gidRaw := g']> games) ps (Sprint gidRaw)
          = 0%nat) as Hrest.
  { apply (accepted_taken_cell Sprint ps _ _ g' cell t);
      [apply lookup_insert_eq | exact Hc | | | exact Hall].
    - rewrite index_lookup in * by lia. rewrite Hb.
      apply list_lookup_insert_eq. eapply lookup_lt_Some. exact He.
    - destruct Hmark as [-> | ->]; discriminate. }
  cbn [accepted]. rewrite Hok. cbn [fst snd target]. rewrite Hgid. cbn.
  rewrite bool_decide_eq_true_2 by reflexivity. rewrite Hrest.
  split; [reflexivity|]. split; [eauto | reflexivity].
Qed.

Lemma one_call_takes_the_cell_witness :
  accepted sprint_basic (run sprint_basic ∅ (removelast drawn_game))
    [move_payload (VString "g-7") (num 8);
     move_payload (VString "g-7") (VString "8");
     move_payload (VString "g-7") (num 8)] "g-7" = 1%nat.
Proof.
  destruct (one_call_takes_the_cell sprint_basic
              (run sprint_basic ∅ (removelast drawn_game)) "g-7"
              {| ID := "g-7"; Board := "XOXXOOOX-"; Turn := "X"; Winner := "" |}
              8 (move_payload (VString "g-7") (num 8))
              [move_payload (VString "g-7") (VString "8");
               move_payload (VString "g-7") (num 8)])
    as [H _]; [| | | | | |exact H].
  - apply reachable_run. repeat constructor; cbn; lia.
  - vm_compute. reflexivity.
  - reflexivity.
  - lia.
  - reflexivity.
  - repeat (apply List.Forall_cons;
            [eexists _, (VString "g-7"), _;
             split; [reflexivity|];
             split; [vm_compute; reflexivity|];
             split; [reflexivity|];
             split; [vm_compute; reflexivity | reflexivity]|]).
    apply List.Forall_nil.
Defined.

(** ** The tables of outcomes on concrete calls *)

Lemma getGame_outcome_witness :
  ∃ (inp : gmap string value) (gidRaw : value),
    Some (<["game_id" := VString "g-9"]> ∅) = Some inp ∧
    inp !! "game_id" = Some gidRaw ∧
    run sprint_basic ∅ [CreateGame 7] !! sprint_basic gidRaw = None.
Proof.
  destruct (getGame_outcome sprint_basic (run sprint_basic ∅ [CreateGame 7])
              (Some (<["game_id" := VString "g-9"]> ∅)))
    as (_ & _ & _ & _ & [Hnf _] & _).
  apply Hnf. vm_compute. reflexivity.
Defined.

Lemma makeMove_error_table_witness :
  snd (makeMoveRPC sprint_basic (run sprint_basic ∅ [CreateGame 7; mv "g-7" 4])
         (move_payload (VString "g-7") (num 4)))
  = Err "cell already occupied".
Proof.
  destruct (makeMove_error_table sprint_basic
              (run sprint_basic ∅ [CreateGame 7; mv "g-7" 4])
              (move_payload (VString "g-7") (num 4)))
    as (_ & _ & _ & _ & _ & _ & _ & [_ Hocc] & _).
  apply Hocc.
  exists (<["game_id" := VString "g-7"]> (<["cell" := num 4]> ∅)),
         (VString "g-7"), (num 4), 4,
         {| ID := "g-7"; Board := "----X----"; Turn := "O"; Winner := "" |},
         "X"%char.
  split; [reflexivity|]. split; [vm_compute; reflexivity|].
  split; [vm_compute; reflexivity|]. split; [reflexivity|].
  split; [lia|]. split; [vm_compute; reflexivity|].
  split; [reflexivity|]. split; [reflexivity | discriminate].
Defined.

(** An initializer that refuses create_game: nothing else is registered.
    An initializer that refuses make_move: create_game was registered,
    get_game is not. *)
Lemma InitModule_registers_in_order_witness :
  let refuse := λ (name : string) (_ : list init_event) (id : string)
                  (_ : handler),
                  if bool_decide (id = name) then Some "taken" else None in
  InitModule (refuse "create_game")
    = ([LogInfo "Loading TicTacToe Module...";
        RegisterRpc "create_game" HCreateGame;
        LogError "Unable to register create_game: %v" "taken"],
       Some "taken") ∧
  InitModule (refuse "make_move")
    = ([LogInfo "Loading TicTacToe Module...";
        RegisterRpc "create_game" HCreateGame;
        RegisterRpc "make_move" HMakeMove;
        LogError "Unable to register make_move: %v" "taken"],
       Some "taken").
Proof.
  intros refuse. split.
  - destruct (InitModule_registers_in_order (refuse "create_game"))
      as (H1 & _).
    destruct (H1 "taken") as [Hevs Hres]; [reflexivity|].
    destruct (InitModule (refuse "create_game")) as [evs res].
    cbn [fst snd] in Hevs, Hres. now rewrite Hevs, Hres.
  - destruct (InitModule_registers_in_order (refuse "make_move"))
      as (_ & H2 & _).
    destruct (H2 "taken") as [Hevs Hres]; [reflexivity | reflexivity|].
    destruct (InitModule (refuse "make_move")) as [evs res].
    cbn [fst snd] in Hevs, Hres. now rewrite Hevs, Hres.
Defined.

Lemma TestRpc_echo_witness :
  (∃ reply, TestRpc "{}" = Ok reply ∧
     map byte_val (bytes reply)
       = [123; 34; 111; 107; 34; 58; 32; 116; 114; 117; 101; 44; 32;
          34; 109; 115; 103; 34; 58; 32;
          34; 82; 80; 67; 32; 119; 111; 114; 107; 105; 110; 103; 33; 34;
          44; 32; 34; 112; 97; 121; 108; 111; 97; 100; 34; 58; 32;
          123; 125; 125] ∧
     length (bytes reply) = 50%nat) ∧
  "{}" = "{}".
Proof.
  destruct (TestRpc_echo "{}" "{}") as [(reply & Hok & Hbytes & Hlen) Hinj].
  split; [|apply Hinj; reflexivity].
  exists reply. split; [exact Hok|]. split; [|exact Hlen].
  rewrite Hbytes. reflexivity.
Defined.
